(** * FunctionToPiecewise: a piecewise-linear approximator and its inverse

    Shallow embedding of [src/src/FunctionToPiecewise.h] (class
    [FunctionToPiecewise]) and of the linear test function of
    [src/src/test.cpp].

    The C++ code computes on [float].  The algorithm is embedded over an
    interface [Arith] of the arithmetic and comparison operators the code
    uses; the instance [binary32] is IEEE-754 single precision, round to
    nearest even, as specified by [SpecFloat] with a 24 bit mantissa.  This
    is what the program computes.  The statements are either about every
    arithmetic (they use no property of the operators) or about [binary32],
    where they rest on the order of the floating-point comparisons and on
    the evaluation of concrete runs. *)

From Stdlib Require Import ZArith Lia List Bool Sorted.
From Stdlib Require Import Floats.SpecFloat.
Import ListNotations.

Set Implicit Arguments.

(** ** The arithmetic the code uses *)

Class Arith (F : Type) : Type := {
  fadd : F -> F -> F;
  fsub : F -> F -> F;
  fmul : F -> F -> F;
  fdiv : F -> F -> F;
  (** [a < b] *)
  flt : F -> F -> bool;
  (** [a <= b] *)
  fle : F -> F -> bool;
  (** the conversion [int -> float] of the usual arithmetic conversions *)
  of_int : Z -> F
}.

(** [a > b] and [a >= b] are the mirrored comparisons, also on NaN. *)
Definition fgt {F} `{Arith F} (a b : F) : bool := flt b a.
Definition fge {F} `{Arith F} (a b : F) : bool := fle b a.

(** IEEE-754 binary32: [prec = 24], [emax = 128]. *)
Definition float32 : Type := spec_float.

#[export] Instance binary32 : Arith float32 := {
  fadd := SFadd 24 128;
  fsub := SFsub 24 128;
  fmul := SFmul 24 128;
  fdiv := SFdiv 24 128;
  flt := SFltb;
  fle := SFleb;
  of_int := fun n => binary_normalize 24 128 n 0 false
}.

(** ** Results of the two queries *)

(** Modelled from the spec: [MBED_ERROR] is a macro of [mbed.h], which is not
    part of the repository.  The spec says that the query fails; the model
    returns the error instead of a value.  Both queries raise the error code
    [MBED_ERROR_CODE_INVALID_ARGUMENT]; they differ in the message, which
    the two constructors stand for. *)
Inductive mbed_error : Type :=
| x_out_of_interval   (* "_x value is out of the piecewise function's interval" *)
| y_out_of_range.     (* "_y value is out of the piecewise function's range" *)

Inductive result (A : Type) : Type :=
| Ok (v : A)
| Error (e : mbed_error).

Arguments Ok {A} v.
Arguments Error {A} e.

Section Piecewise.

Context {F : Type} `{Arith F}.

(** ** Data *)

(** [LineFunc]: a linear function, by slope and y-intercept. *)
Record LineFunc : Type := mkLineFunc { slope : F; yint : F }.

(** [Point]: a point of the plane (fields [x] and [y] of the source). *)
Record Point : Type := mkPoint { pt_x : F; pt_y : F }.

(** [std::pair<float, float>] is [F * F]; [first] is [fst], [second] is [snd].
    An element of [std::map<std::pair<float, float>, LineFunc>] is a pair of
    a key and a [LineFunc]; the map is the list of its elements in key
    order, which is the order in which [cbegin() .. cend()] visits them. *)
Definition interval : Type := (F * F)%type.
Definition segment : Type := (interval * LineFunc)%type.
Definition table : Type := list segment.

(** [std::less<std::pair<float, float>>]: lexicographic [operator<]. *)
Definition pair_less (a b : interval) : bool :=
  flt (fst a) (fst b) || (negb (flt (fst b) (fst a)) && flt (snd a) (snd b)).

(** [std::map::insert]: the element goes to its place in key order; when the
    map already holds an equivalent key (neither is less than the other) the
    map is left as it is. *)
Fixpoint map_insert (k : interval) (v : LineFunc) (m : table) : table :=
  match m with
  | [] => [(k, v)]
  | (k', v') :: rest =>
      if pair_less k k' then (k, v) :: m
      else if pair_less k' k then (k', v') :: map_insert k v rest
      else m
  end.

(** The object: the stored function pointer and the two maps. *)
Record FunctionToPiecewise : Type := mkFunctionToPiecewise {
  originalFunciton : F -> F;
  f_of_x_fns : table;
  f_of_y_fns : table
}.

(** ** Private helpers *)

Definition evalLinearFunction (_x : F) (_line : LineFunc) : F :=
  fadd (fmul (slope _line) _x) (yint _line).

Definition getLineFuncSlope (_pt1 _pt2 : Point) : F :=
  fdiv (fsub (pt_y _pt2) (pt_y _pt1)) (fsub (pt_x _pt2) (pt_x _pt1)).

Definition getLineFuncYInt (_pt1 _pt2 : Point) : F :=
  fsub (pt_y _pt1) (fmul (getLineFuncSlope _pt1 _pt2) (pt_x _pt1)).

(** ** The constructor *)

(** [for (float x = first; x < second; x += xIncrement) { insert (body x) }]
    on a map.  [None] means that the fuel ran out before the loop condition
    became false. *)
Fixpoint for_x (body : F -> segment) (second xIncrement : F)
         (fuel : nat) (x : F) (m : table) : option table :=
  match fuel with
  | O => None
  | S fuel' =>
      if flt x second
      then for_x body second xIncrement fuel' (fadd x xIncrement)
                 (map_insert (fst (body x)) (snd (body x)) m)
      else Some m
  end.

Section Bodies.

Variable function : F -> F.
Variable xIncrement : F.

(** [std::pair<float, float> tempSubInterval;]: the default constructor of
    [std::pair] value-initialises both members, to [0.0f]. *)
Definition default_pair : interval := (of_int 0, of_int 0).

(** Body of the first loop (the [f_of_x_fns] table).  The y-ordered
    assignment to [tempSubInterval] is overwritten, member by member, by the
    x-interval. *)
Definition f_of_x_entry (x : F) : segment :=
  let tempPt1 := mkPoint x (function x) in
  let tempPt2 := mkPoint (fadd x xIncrement) (function (fadd x xIncrement)) in
  let tempLineFunc :=
    mkLineFunc (getLineFuncSlope tempPt1 tempPt2)
               (getLineFuncYInt tempPt1 tempPt2) in
  let tempSubInterval := default_pair in
  let tempSubInterval :=
    if fgt (pt_y tempPt1) (pt_y tempPt2) then (pt_y tempPt2, pt_y tempPt1)
    else if fgt (pt_y tempPt2) (pt_y tempPt1) then (pt_y tempPt1, pt_y tempPt2)
    else tempSubInterval in
  let tempSubInterval := (pt_x tempPt1, pt_x tempPt2) in
  (tempSubInterval, tempLineFunc).

(** Body of the second loop (the [f_of_y_fns] table).  When the two samples
    are equal (or unordered) neither branch assigns [tempSubInterval], and
    the element is inserted under the key of the default pair. *)
Definition f_of_y_entry (x : F) : segment :=
  let tempPt1 := mkPoint x (function x) in
  let tempPt2 := mkPoint (fadd x xIncrement) (function (fadd x xIncrement)) in
  let tempLineFunc :=
    mkLineFunc
      (fdiv (of_int 1) (getLineFuncSlope tempPt1 tempPt2))
      (fdiv (fmul (of_int (-1)) (getLineFuncYInt tempPt1 tempPt2))
            (getLineFuncSlope tempPt1 tempPt2)) in
  let tempSubInterval := default_pair in
  let tempSubInterval :=
    if fgt (pt_y tempPt1) (pt_y tempPt2) then (pt_y tempPt2, pt_y tempPt1)
    else if fgt (pt_y tempPt2) (pt_y tempPt1) then (pt_y tempPt1, pt_y tempPt2)
    else tempSubInterval in
  (tempSubInterval, tempLineFunc).

End Bodies.

(** [FunctionToPiecewise::FunctionToPiecewise]. *)
Definition new_FunctionToPiecewise (fuel : nat)
           (function : F -> F) (_nSegments : Z) (_interval : interval)
  : option FunctionToPiecewise :=
  let xIncrement :=
    fdiv (fsub (snd _interval) (fst _interval)) (of_int _nSegments) in
  match for_x (f_of_x_entry function xIncrement)
              (snd _interval) xIncrement fuel (fst _interval) [] with
  | None => None
  | Some fx =>
      match for_x (f_of_y_entry function xIncrement)
                  (snd _interval) xIncrement fuel (fst _interval) [] with
      | None => None
      | Some fy => Some (mkFunctionToPiecewise function fx fy)
      end
  end.

(** ** The queries *)

(** The predicate of both [std::find_if] calls. *)
Definition in_interval (v : F) (fn : segment) : bool :=
  fge v (fst (fst fn)) && flt v (snd (fst fn)).

Definition xToy (p : FunctionToPiecewise) (_x : F) : result F :=
  match find (in_interval _x) (f_of_x_fns p) with
  | None => Error x_out_of_interval
  | Some fn => Ok (evalLinearFunction _x (snd fn))
  end.

Definition yTox (p : FunctionToPiecewise) (_y : F) : result F :=
  match find (in_interval _y) (f_of_y_fns p) with
  | None => Error y_out_of_range
  | Some fn => Ok (evalLinearFunction _y (snd fn))
  end.

End Piecewise.

Arguments LineFunc F : clear implicits.
Arguments Point F : clear implicits.
Arguments FunctionToPiecewise F : clear implicits.
Arguments interval F : clear implicits.
Arguments segment F : clear implicits.
Arguments table F : clear implicits.

Unset Implicit Arguments.

(** ** The test function of [test.cpp] *)

(** [Func1]: [return (2 * _x);] *)
Definition Func1 {F} `{Arith F} (_x : F) : F := fmul (of_int 2) _x.

(** ** Vocabulary of the statements *)

(** The two maps of an object, and a query on the outcome of a construction
    ([None]: the construction did not come to an end within the fuel). *)
Definition tables {F} `{Arith F} (p : FunctionToPiecewise F) : table F * table F :=
  (f_of_x_fns p, f_of_y_fns p).

Definition query {F A} (q : FunctionToPiecewise F -> result A)
           (p : option (FunctionToPiecewise F)) : option (result A) :=
  option_map q p.

(** The value of the loop variable at the start of iteration [i]. *)
Fixpoint knot {F} `{Arith F} (first xIncrement : F) (i : nat) : F :=
  match i with
  | O => first
  | S j => fadd (knot first xIncrement j) xIncrement
  end.

Definition knots {F} `{Arith F} (first xIncrement : F) (k : nat) : list F :=
  map (knot first xIncrement) (seq 0 k).

(** The inserts of the loop body, one per loop variable value. *)
Definition insert_all {F} `{Arith F} (body : F -> segment F) (xs : list F)
           (m : table F) : table F :=
  fold_left (fun m x => map_insert (fst (body x)) (snd (body x)) m) xs m.


(** The step of the constructor. *)
Definition step_of {F} `{Arith F} (_nSegments : Z) (_interval : F * F) : F :=
  fdiv (fsub (snd _interval) (fst _interval)) (of_int _nSegments).

(** No value lies in the half-open ranges of two entries of the map. *)
Definition ranges_disjoint {F} `{Arith F} (m : table F) : Prop :=
  forall v e1 e2,
    In e1 m -> In e2 m ->
    in_interval v e1 = true -> in_interval v e2 = true -> e1 = e2.

(** A source function of the form [m * x + b]. *)
Definition linear {F} `{Arith F} (m b : F) (_x : F) : F :=
  fadd (fmul m _x) b.

(** Source functions used as concrete inputs. *)
Definition square {F} `{Arith F} (_x : F) : F := fmul _x _x.

Definition absolute {F} `{Arith F} (_x : F) : F :=
  if flt _x (of_int 0) then fsub (of_int 0) _x else _x.

Definition constant3 {F} `{Arith F} (_x : F) : F := of_int 3.

(** [std::min] and [std::max]. *)
Definition fmin {F} `{Arith F} (a b : F) : F := if flt b a then b else a.
Definition fmax {F} `{Arith F} (a b : F) : F := if flt a b then b else a.

(** An integer literal of the test code, converted to [float]. *)
Definition f32 (k : Z) : float32 := of_int k.

(** The [float] values 0.5, -0.5 and 0.75. *)
Definition half : float32 := fdiv (f32 1) (f32 2).
Definition minus_half : float32 := fdiv (f32 (-1)) (f32 2).
Definition three_quarters : float32 := fdiv (f32 3) (f32 4).

(** The loop [for (x = first; x < second; x += xIncrement)] leaves after [k]
    iterations: the values [x_0 .. x_(k-1)] of the loop variable are below
    [second] and [x_k] is not. *)
Definition iterations {F} `{Arith F} (first second xIncrement : F) (k : nat)
  : Prop :=
  (forall j, (j < k)%nat -> flt (knot first xIncrement j) second = true) /\
  flt (knot first xIncrement k) second = false.

(** Each of the first [k] additions of the step moves the loop variable
    up. *)
Definition knots_increasing {F} `{Arith F} (first xIncrement : F) (k : nat)
  : Prop :=
  forall i, (i < k)%nat ->
    flt (knot first xIncrement i) (knot first xIncrement (S i)) = true.

(** Consecutive samples of the source function on the first [k] slices. *)
Definition samples_increasing {F} `{Arith F} (f : F -> F)
           (first xIncrement : F) (k : nat) : Prop :=
  forall i, (i < k)%nat ->
    flt (f (knot first xIncrement i)) (f (knot first xIncrement (S i))) = true.

Definition samples_decreasing {F} `{Arith F} (f : F -> F)
           (first xIncrement : F) (k : nat) : Prop :=
  forall i, (i < k)%nat ->
    flt (f (knot first xIncrement (S i))) (f (knot first xIncrement i)) = true.

(** The order of the elements of a [std::map]: strictly increasing keys. *)
Definition key_order {F} `{Arith F} (a b : segment F) : Prop :=
  pair_less (fst a) (fst b) = true.

Definition keys_sorted {F} `{Arith F} (m : table F) : Prop :=
  StronglySorted key_order m.

(** The lower bound of the key of an element is comparable (in binary32: it
    is not NaN). *)
Definition key_defined {F} `{Arith F} (e : segment F) : Prop :=
  fle (fst (fst e)) (fst (fst e)) = true.

(** [fn] is the element that [std::find_if] returns on [m]: the first
    element, in the order of the map, whose range holds [v]. *)
Definition first_match {F} `{Arith F} (v : F) (m : table F) (fn : segment F)
  : Prop :=
  exists l1 l2,
    m = l1 ++ fn :: l2 /\ in_interval v fn = true /\
    forall e, In e l1 -> in_interval v e = false.

(** [LineFunc{getLineFuncSlope(pt1, pt2), getLineFuncYInt(pt1, pt2)}]:
    the line that the loop bodies build from the two samples of a slice. *)
Definition line_through {F} `{Arith F} (_pt1 _pt2 : Point F) : LineFunc F :=
  mkLineFunc (getLineFuncSlope _pt1 _pt2) (getLineFuncYInt _pt1 _pt2).

(** ** The order of the comparisons *)

(** The laws of [<] and [<=] that the statements about the ranges of the
    tables rest on.  A value [a] with [fle a a = true] is comparable with
    every other such value; [flt a b = true] and [fle a b = true] only hold
    between comparable values. *)
Class Ordered (F : Type) `{Arith F} : Prop := {
  flt_fle_trans :
    forall a b c : F, flt a b = true -> fle b c = true -> flt a c = true;
  fle_flt_trans :
    forall a b c : F, fle a b = true -> flt b c = true -> flt a c = true;
  fle_trans :
    forall a b c : F, fle a b = true -> fle b c = true -> fle a c = true;
  flt_fle : forall a b : F, flt a b = true -> fle a b = true;
  flt_not_fle : forall a b : F, flt a b = true -> fle b a = false;
  fle_total :
    forall a b : F,
      fle a a = true -> fle b b = true -> flt a b = false -> fle b a = true;
  flt_defined :
    forall a b : F, flt a b = true -> fle a a = true /\ fle b b = true;
  fle_defined :
    forall a b : F, fle a b = true -> fle a a = true /\ fle b b = true
}.

(** [SFcompare] orders the values of binary32 other than NaN by sign class,
    then by exponent, then by mantissa: lexicographically by this triple. *)
Definition is_nan (a : float32) : bool :=
  match a with S754_nan => true | _ => false end.

Definition rank (a : float32) : Z * Z * Z :=
  match a with
  | S754_zero _ => (0, 0, 0)
  | S754_infinity false => (2, 0, 0)
  | S754_infinity true => (-2, 0, 0)
  | S754_nan => (0, 0, 0)
  | S754_finite false m e => (1, e, Z.pos m)
  | S754_finite true m e => (-1, - e, Z.neg m)
  end%Z.

Definition rank_lt (a b : Z * Z * Z) : Prop :=
  let '(a1, a2, a3) := a in
  let '(b1, b2, b3) := b in
  (a1 < b1 \/ (a1 = b1 /\ (a2 < b2 \/ (a2 = b2 /\ a3 < b3))))%Z.

Definition rank_le (a b : Z * Z * Z) : Prop :=
  let '(a1, a2, a3) := a in
  let '(b1, b2, b3) := b in
  (a1 < b1 \/ (a1 = b1 /\ (a2 < b2 \/ (a2 = b2 /\ a3 <= b3))))%Z.

(** The half-open range [[a, b)]. *)
Definition in_range {F} `{Arith F} (v a b : F) : bool :=
  fle a v && flt v b.

(** * Properties of the embedding, for every arithmetic *)

Section Generic.

Context {F : Type} `{Arith F}.

Variable body : F -> segment F.
Variables second xIncrement : F.

Lemma knot_shift (first : F) (i : nat) :
  knot (fadd first xIncrement) xIncrement i = knot first xIncrement (S i).
Proof.
  induction i as [|i IH]; simpl; [reflexivity|].
  rewrite IH. reflexivity.
Qed.

Lemma knots_cons (first : F) (k : nat) :
  knots first xIncrement (S k) =
  first :: knots (fadd first xIncrement) xIncrement k.
Proof.
  unfold knots. simpl. f_equal.
  rewrite <- seq_shift, map_map.
  apply map_ext. intro i. symmetry. apply knot_shift.
Qed.

(** The loop runs its body on the knots below [second] and stops at the first
    knot that is not below it. *)
Lemma for_x_runs (k : nat) :
  forall (fuel : nat) (first : F) (m : table F),
    (forall i, (i < k)%nat -> flt (knot first xIncrement i) second = true) ->
    flt (knot first xIncrement k) second = false ->
    (k < fuel)%nat ->
    for_x body second xIncrement fuel first m =
    Some (insert_all body (knots first xIncrement k) m).
Proof.
  induction k as [|k IH]; intros fuel first m Hlt Hstop Hfuel.
  - destruct fuel as [|fuel]; [lia|]. simpl in *. rewrite Hstop. reflexivity.
  - destruct fuel as [|fuel]; [lia|]. cbn [for_x].
    pose proof (Hlt 0%nat ltac:(lia)) as H0. simpl in H0. rewrite H0.
    rewrite knots_cons. cbn [insert_all fold_left].
    change (fold_left ?f ?l ?a) with (insert_all body l a).
    apply IH.
    + intros i Hi. rewrite knot_shift. apply Hlt. lia.
    + rewrite knot_shift. exact Hstop.
    + lia.
Qed.

(** A loop whose condition is false at the start inserts nothing. *)
Lemma for_x_none_to_do (fuel : nat) (first : F) (m : table F) :
  flt first second = false ->
  for_x body second xIncrement (S fuel) first m = Some m.
Proof. intro Hc. simpl. rewrite Hc. reflexivity. Qed.

(** [insert] never removes an element. *)
Lemma map_insert_keeps (k : interval F) (v : LineFunc F) (m : table F) (e : segment F) :
  In e m -> In e (map_insert k v m).
Proof.
  induction m as [|[k' v'] m IH]; simpl; intro Hin; [contradiction|].
  destruct (pair_less k k'); [right; exact Hin|].
  destruct (pair_less k' k); [|exact Hin].
  destruct Hin as [Heq|Hin]; [left; exact Heq|right; apply IH; exact Hin].
Qed.

(** [insert] adds at most the new element. *)
Lemma map_insert_adds (k : interval F) (v : LineFunc F) (m : table F) (e : segment F) :
  In e (map_insert k v m) -> e = (k, v) \/ In e m.
Proof.
  induction m as [|[k' v'] m IH]; simpl; intro Hin.
  - destruct Hin as [Heq|[]]. left. symmetry. exact Heq.
  - destruct (pair_less k k').
    + destruct Hin as [Heq|Hin]; [left; symmetry; exact Heq|right; exact Hin].
    + destruct (pair_less k' k); [|right; exact Hin].
      destruct Hin as [Heq|Hin]; [right; left; exact Heq|].
      destruct (IH Hin) as [Heq|Hin']; [left; exact Heq|right; right; exact Hin'].
Qed.


Lemma insert_all_keeps (xs : list F) :
  forall (m : table F) (e : segment F), In e m -> In e (insert_all body xs m).
Proof.
  induction xs as [|x xs IH]; simpl; intros m e Hin; [exact Hin|].
  apply IH. apply map_insert_keeps. exact Hin.
Qed.

Lemma insert_all_adds (xs : list F) :
  forall (m : table F) (e : segment F),
    In e (insert_all body xs m) -> In e m \/ exists x, In x xs /\ e = body x.
Proof.
  induction xs as [|x xs IH]; simpl; intros m e Hin; [left; exact Hin|].
  destruct (IH _ _ Hin) as [Hin'|[x' [Hx' He]]].
  - destruct (map_insert_adds _ _ _ _ Hin') as [Heq|Hm]; [|left; exact Hm].
    right. exists x. split; [left; reflexivity|].
    rewrite Heq. symmetry. apply surjective_pairing.
  - right. exists x'. split; [right; exact Hx'|exact He].
Qed.


(** Keys that arrive in increasing order are appended. *)
Lemma map_insert_last (k : interval F) (v : LineFunc F) (m : table F) :
  (forall e, In e m ->
     pair_less k (fst e) = false /\ pair_less (fst e) k = true) ->
  map_insert k v m = m ++ [(k, v)].
Proof.
  induction m as [|[k' v'] m IH]; simpl; intro Hall; [reflexivity|].
  destruct (Hall (k', v') (or_introl eq_refl)) as [E1 E2]. simpl in E1, E2.
  rewrite E1, E2. f_equal. apply IH.
  intros e He. apply Hall. right. exact He.
Qed.

(** Keys that arrive in decreasing order are put in front. *)
Lemma map_insert_first (k : interval F) (v : LineFunc F) (m : table F) :
  (forall e, In e m -> pair_less k (fst e) = true) ->
  map_insert k v m = (k, v) :: m.
Proof.
  destruct m as [|[k' v'] m]; simpl; intro Hall; [reflexivity|].
  pose proof (Hall (k', v') (or_introl eq_refl)) as E. simpl in E.
  rewrite E. reflexivity.
Qed.

(** [find_if] returns the only element that satisfies the predicate. *)
Lemma find_only (p : segment F -> bool) (m : table F) (e : segment F) :
  In e m -> p e = true ->
  (forall e', In e' m -> p e' = true -> e' = e) ->
  find p m = Some e.
Proof.
  induction m as [|a m IH]; simpl; intros Hin Hp Huniq; [contradiction|].
  destruct (p a) eqn:Ea.
  - f_equal. apply Huniq; [left; reflexivity|exact Ea].
  - destruct Hin as [Heq|Hin]; [subst a; congruence|].
    apply IH; [exact Hin|exact Hp|].
    intros e' He' Hp'. apply Huniq; [right; exact He'|exact Hp'].
Qed.

(** Keys that arrive in increasing order: the map lists the elements in the
    order of the loop. *)
Lemma insert_all_ascending (xs : list F) :
  forall m : table F,
    (forall e x, In e m -> In x xs ->
       pair_less (fst (body x)) (fst e) = false /\
       pair_less (fst e) (fst (body x)) = true) ->
    ForallOrdPairs
      (fun x x' => pair_less (fst (body x')) (fst (body x)) = false /\
                   pair_less (fst (body x)) (fst (body x')) = true) xs ->
    insert_all body xs m = m ++ map body xs.
Proof.
  induction xs as [|x xs IH]; intros m Hm Hord; simpl.
  - symmetry. apply app_nil_r.
  - inversion Hord as [|a l Hx Hrest]; subst.
    rewrite map_insert_last.
    + change (fold_left ?f ?l ?a) with (insert_all body l a).
      rewrite IH.
      * rewrite <- app_assoc. simpl.
        rewrite <- (surjective_pairing (body x)). reflexivity.
      * intros e x' He Hx'. apply in_app_or in He. destruct He as [He|[He|[]]].
        -- apply Hm; [exact He|right; exact Hx'].
        -- subst e. simpl. rewrite Forall_forall in Hx. apply Hx. exact Hx'.
      * exact Hrest.
    + intros e He. apply Hm; [exact He|left; reflexivity].
Qed.

(** Keys that arrive in decreasing order: the map lists the elements in the
    reverse order of the loop. *)
Lemma insert_all_descending (xs : list F) :
  forall m : table F,
    (forall e x, In e m -> In x xs ->
       pair_less (fst (body x)) (fst e) = true) ->
    ForallOrdPairs
      (fun x x' => pair_less (fst (body x')) (fst (body x)) = true) xs ->
    insert_all body xs m = rev (map body xs) ++ m.
Proof.
  induction xs as [|x xs IH]; intros m Hm Hord; simpl; [reflexivity|].
  inversion Hord as [|a l Hx Hrest]; subst.
  rewrite map_insert_first.
  - change (fold_left ?f ?l ?a) with (insert_all body l a).
    rewrite IH.
    + rewrite <- app_assoc. simpl.
      rewrite <- (surjective_pairing (body x)). reflexivity.
    + intros e x' [He|He] Hx'.
      * subst e. simpl. rewrite Forall_forall in Hx. apply Hx. exact Hx'.
      * apply Hm; [exact He|right; exact Hx'].
    + exact Hrest.
  - intros e He. apply Hm; [exact He|left; reflexivity].
Qed.

(** A loop that comes to an end has run its body on the knots before the
    first knot that is not below [second]. *)
Lemma for_x_result (fuel : nat) :
  forall (first : F) (m t : table F),
    for_x body second xIncrement fuel first m = Some t ->
    exists k,
      t = insert_all body (knots first xIncrement k) m /\
      flt (knot first xIncrement k) second = false /\
      (forall j, (j < k)%nat -> flt (knot first xIncrement j) second = true).
Proof.
  induction fuel as [|fuel IH]; intros first m t Hrun; [discriminate|].
  cbn [for_x] in Hrun. destruct (flt first second) eqn:Hc.
  - destruct (IH _ _ _ Hrun) as [k [Ht [Hstop Hlt]]].
    exists (S k). split; [|split].
    + rewrite knots_cons. exact Ht.
    + rewrite <- knot_shift. exact Hstop.
    + intros [|j] Hj; [exact Hc|]. rewrite <- knot_shift. apply Hlt. lia.
  - injection Hrun as <-. exists 0%nat. split; [reflexivity|].
    split; [exact Hc|]. intros j Hj. lia.
Qed.


(** [find_if] returns [end()] when no element satisfies the predicate. *)
Lemma find_nothing (p : segment F -> bool) (m : table F) :
  (forall e, In e m -> p e = false) -> find p m = None.
Proof.
  induction m as [|a m IH]; simpl; intro Hall; [reflexivity|].
  rewrite (Hall a (or_introl eq_refl)). apply IH.
  intros e He. apply Hall. right. exact He.
Qed.

End Generic.

(** ** The loop and the inserts *)

Section Loop.

Context {F : Type} `{Arith F}.

Variable body : F -> segment F.
Variables second xIncrement : F.

(** A loop variable that the step does not move never leaves the loop. *)
Lemma for_x_stuck (x : F) :
  flt x second = true -> fadd x xIncrement = x ->
  forall (fuel : nat) (m : table F),
    for_x body second xIncrement fuel x m = None.
Proof.
  intros Hc Hfix fuel. induction fuel as [|fuel IH]; intro m; [reflexivity|].
  cbn [for_x]. rewrite Hc, Hfix. apply IH.
Qed.

Lemma for_x_stuck_later (i : nat) :
  forall (first : F) (fuel : nat) (m : table F),
    (forall j, (j <= i)%nat -> flt (knot first xIncrement j) second = true) ->
    fadd (knot first xIncrement i) xIncrement = knot first xIncrement i ->
    for_x body second xIncrement fuel first m = None.
Proof.
  induction i as [|i IH]; intros first fuel m Hbelow Hfix.
  - apply for_x_stuck; [apply (Hbelow 0%nat); lia|exact Hfix].
  - destruct fuel as [|fuel]; [reflexivity|]. cbn [for_x].
    pose proof (Hbelow 0%nat ltac:(lia)) as H0. simpl in H0. rewrite H0.
    apply IH.
    + intros j Hj. rewrite knot_shift. apply Hbelow. lia.
    + rewrite !knot_shift. exact Hfix.
Qed.

Lemma map_insert_length (k : interval F) (v : LineFunc F) (m : table F) :
  (length (map_insert k v m) <= S (length m))%nat.
Proof.
  induction m as [|[k' v'] m IH]; simpl; [lia|].
  destruct (pair_less k k'); simpl; [lia|].
  destruct (pair_less k' k); simpl; lia.
Qed.

Lemma insert_all_length (xs : list F) :
  forall m : table F,
    (length (insert_all body xs m) <= length m + length xs)%nat.
Proof.
  induction xs as [|x xs IH]; intro m; simpl; [lia|].
  change (fold_left ?f ?l ?a) with (insert_all body l a).
  pose proof (IH (map_insert (fst (body x)) (snd (body x)) m)) as Hl.
  pose proof (map_insert_length (fst (body x)) (snd (body x)) m). lia.
Qed.

(** The element of the first iteration is stored and stays stored. *)
Lemma insert_all_first (x : F) (xs : list F) :
  In (body x) (insert_all body (x :: xs) []).
Proof.
  simpl. change (fold_left ?f ?l ?a) with (insert_all body l a).
  apply insert_all_keeps. left. symmetry. apply surjective_pairing.
Qed.

(** The number of iterations of a loop that comes to an end is determined by
    the knots. *)
Lemma iterations_unique (first : F) (k1 k2 : nat) :
  flt (knot first xIncrement k1) second = false ->
  (forall j, (j < k1)%nat -> flt (knot first xIncrement j) second = true) ->
  flt (knot first xIncrement k2) second = false ->
  (forall j, (j < k2)%nat -> flt (knot first xIncrement j) second = true) ->
  k1 = k2.
Proof.
  intros Hs1 Hb1 Hs2 Hb2.
  destruct (Nat.lt_trichotomy k1 k2) as [Hlt|[Heq|Hgt]]; [|exact Heq|].
  - rewrite (Hb2 k1 Hlt) in Hs1. discriminate.
  - rewrite (Hb1 k2 Hgt) in Hs2. discriminate.
Qed.

End Loop.

(** A relation that holds between the images of any two increasing indices
    holds between the ordered pairs of the mapped index range. *)
Lemma ForallOrdPairs_map_seq {A : Type} (R : A -> A -> Prop) (g : nat -> A)
      (k : nat) :
  forall a : nat,
    (forall i j, (a <= i)%nat -> (i < j)%nat -> (j < a + k)%nat -> R (g i) (g j)) ->
    ForallOrdPairs R (map g (seq a k)).
Proof.
  induction k as [|k IH]; intros a HR; simpl; constructor.
  - apply Forall_forall. intros y Hy.
    apply in_map_iff in Hy. destruct Hy as [j [Hj Hin]]. subst y.
    apply in_seq in Hin. apply HR; lia.
  - apply IH. intros i j Hi Hij Hj. apply HR; lia.
Qed.

Lemma in_knots {F} `{Arith F} (first xIncrement x : F) (k : nat) :
  In x (knots first xIncrement k) <->
  exists i, (i < k)%nat /\ x = knot first xIncrement i.
Proof.
  unfold knots. rewrite in_map_iff. split.
  - intros [i [Hi Hin]]. apply in_seq in Hin. exists i. split; [lia|auto].
  - intros [i [Hi Hx]]. exists i. split; [auto|apply in_seq; lia].
Qed.


(** * The order of binary32 *)

Lemma SFltb_rank (a b : float32) :
  SFltb a b = true <->
  is_nan a = false /\ is_nan b = false /\ rank_lt (rank a) (rank b).
Proof.
  unfold SFltb.
  destruct a as [sa|sa| |sa ma ea], b as [sb|sb| |sb mb eb];
    try destruct sa; try destruct sb; simpl;
    try (split; [discriminate|intros [? [? ?]]; try discriminate; lia]);
    try (split; [intros _; repeat split; lia|reflexivity]).
  all: destruct (Z.compare_spec ea eb) as [E|E|E];
    try (split; [discriminate|intros [_ [_ ?]]; lia]);
    try (split; [intros _; repeat split; lia|reflexivity]).
  all: subst; change (Pos.compare_cont Eq ma mb) with (Pos.compare ma mb);
       destruct (Pos.compare_spec ma mb) as [E|E|E]; simpl;
    try (split; [discriminate|intros [_ [_ ?]]; lia]);
    try (split; [intros _; repeat split; lia|reflexivity]).
Qed.

Lemma SFleb_rank (a b : float32) :
  SFleb a b = true <->
  is_nan a = false /\ is_nan b = false /\ rank_le (rank a) (rank b).
Proof.
  unfold SFleb.
  destruct a as [sa|sa| |sa ma ea], b as [sb|sb| |sb mb eb];
    try destruct sa; try destruct sb; simpl;
    try (split; [discriminate|intros [? [? ?]]; try discriminate; lia]);
    try (split; [intros _; repeat split; lia|reflexivity]).
  all: destruct (Z.compare_spec ea eb) as [E|E|E];
    try (split; [discriminate|intros [_ [_ ?]]; lia]);
    try (split; [intros _; repeat split; lia|reflexivity]).
  all: subst; change (Pos.compare_cont Eq ma mb) with (Pos.compare ma mb);
       destruct (Pos.compare_spec ma mb) as [E|E|E]; simpl;
    try (split; [discriminate|intros [_ [_ ?]]; lia]);
    try (split; [intros _; repeat split; lia|reflexivity]).
Qed.

(** The values that are comparable with themselves are the values other
    than NaN. *)
Lemma SFleb_refl_iff (a : float32) : SFleb a a = true <-> is_nan a = false.
Proof.
  rewrite SFleb_rank. destruct (rank a) as [[a1 a2] a3]. simpl.
  split; [tauto|]. intro Hn. repeat split; try exact Hn. lia.
Qed.

Ltac to_rank :=
  repeat match goal with
         | H : SFltb _ _ = true |- _ =>
             apply SFltb_rank in H; destruct H as [? [? ?]]
         | H : SFleb _ _ = true |- _ =>
             apply SFleb_rank in H; destruct H as [? [? ?]]
         end.

Ltac rank_lia :=
  unfold rank_lt, rank_le in *;
  repeat match goal with
         | |- context [rank ?a] => destruct (rank a) as [[? ?] ?]
         | H : context [rank ?a] |- _ => destruct (rank a) as [[? ?] ?]
         end; lia.

#[export] Instance binary32_ordered : Ordered float32.
Proof.
  constructor; simpl.
  - intros a b c H1 H2. to_rank. apply SFltb_rank.
    repeat split; try assumption. rank_lia.
  - intros a b c H1 H2. to_rank. apply SFltb_rank.
    repeat split; try assumption. rank_lia.
  - intros a b c H1 H2. to_rank. apply SFleb_rank.
    repeat split; try assumption. rank_lia.
  - intros a b H1. to_rank. apply SFleb_rank.
    repeat split; try assumption. rank_lia.
  - intros a b H1. destruct (SFleb b a) eqn:E; [|reflexivity].
    exfalso. to_rank. rank_lia.
  - intros a b Ha Hb H1. apply SFleb_rank. to_rank.
    repeat split; try assumption.
    assert (N : ~ rank_lt (rank a) (rank b)).
    { intro Hlt. assert (SFltb a b = true) by (apply SFltb_rank; auto).
      congruence. }
    rank_lia.
  - intros a b H1. to_rank. split; apply SFleb_refl_iff; assumption.
  - intros a b H1. to_rank. split; apply SFleb_refl_iff; assumption.
Qed.

(** * The tables of a completed construction *)

Section Order.

Context {F : Type} {arith : Arith F} {order : Ordered F}.

Lemma flt_trans (a b c : F) :
  flt a b = true -> flt b c = true -> flt a c = true.
Proof. intros H1 H2. apply (flt_fle_trans a b c H1). apply flt_fle. exact H2. Qed.

Lemma flt_asym (a b : F) : flt a b = true -> flt b a = false.
Proof.
  intro H1. destruct (flt b a) eqn:E; [|reflexivity].
  apply flt_fle in E. rewrite (flt_not_fle a b H1) in E. discriminate.
Qed.

Lemma fle_not_flt (a b : F) : fle a b = true -> flt b a = false.
Proof.
  intro H1. destruct (flt b a) eqn:E; [|reflexivity].
  rewrite (flt_not_fle b a E) in H1. discriminate.
Qed.

(** A key whose lower bound is below the lower bound of another key comes
    before it in the order of the map. *)
Lemma pair_less_of_lt (a b : interval F) :
  flt (fst a) (fst b) = true ->
  pair_less b a = false /\ pair_less a b = true.
Proof.
  intro Hlt. unfold pair_less. rewrite Hlt, (flt_asym _ _ Hlt). split; reflexivity.
Qed.

(** ** Consecutive ranges between increasing bounds *)

Section Rising.

Variable c : nat -> F.
Variable k : nat.
Hypothesis rising : forall i, (i < k)%nat -> flt (c i) (c (S i)) = true.

Lemma rising_lt (i j : nat) :
  (i < j)%nat -> (j <= k)%nat -> flt (c i) (c j) = true.
Proof.
  intros Hij Hj. induction j as [|j IH]; [lia|].
  assert (Hs : flt (c j) (c (S j)) = true) by (apply rising; lia).
  destruct (Nat.eq_dec i j) as [->|Hne]; [exact Hs|].
  apply (flt_trans _ (c j)); [apply IH; lia|exact Hs].
Qed.

Lemma rising_defined (i : nat) :
  (0 < k)%nat -> (i <= k)%nat -> fle (c i) (c i) = true.
Proof.
  intros Hk Hi. destruct (Nat.eq_dec i k) as [->|Hne].
  - destruct k as [|k']; [lia|].
    apply (flt_defined (c k') (c (S k'))). apply rising. lia.
  - apply (flt_defined (c i) (c (S i))). apply rising. lia.
Qed.

Lemma rising_le (i j : nat) :
  (i <= j)%nat -> (j <= k)%nat -> (0 < k)%nat -> fle (c i) (c j) = true.
Proof.
  intros Hij Hj Hk. destruct (Nat.eq_dec i j) as [->|Hne].
  - apply rising_defined; assumption.
  - apply flt_fle. apply rising_lt; lia.
Qed.

(** Two of the ranges that hold the same value are one range. *)
Lemma rising_unique (v : F) (i j : nat) :
  (i < k)%nat -> (j < k)%nat ->
  in_range v (c i) (c (S i)) = true -> in_range v (c j) (c (S j)) = true ->
  i = j.
Proof.
  unfold in_range. intros Hi Hj Hvi Hvj.
  apply andb_true_iff in Hvi. destruct Hvi as [Hi1 Hi2].
  apply andb_true_iff in Hvj. destruct Hvj as [Hj1 Hj2].
  destruct (Nat.lt_trichotomy i j) as [Hlt|[Heq|Hgt]]; [|exact Heq|].
  - assert (Hle : fle (c (S i)) (c j) = true) by (apply rising_le; lia).
    pose proof (flt_fle_trans _ _ _ Hi2 Hle) as Hc.
    rewrite (flt_not_fle _ _ Hc) in Hj1. discriminate.
  - assert (Hle : fle (c (S j)) (c i) = true) by (apply rising_le; lia).
    pose proof (flt_fle_trans _ _ _ Hj2 Hle) as Hc.
    rewrite (flt_not_fle _ _ Hc) in Hi1. discriminate.
Qed.

(** A value from the first bound up to the last lies in one of the
    ranges. *)
Lemma rising_locate (v : F) :
  in_range v (c 0) (c k) = true ->
  exists i, (i < k)%nat /\ in_range v (c i) (c (S i)) = true.
Proof.
  unfold in_range. intro Hv.
  apply andb_true_iff in Hv. destruct Hv as [H0 Hk].
  assert (Hgen : forall j, (j <= k)%nat -> flt v (c j) = true ->
            exists i, (i < j)%nat /\ fle (c i) v && flt v (c (S i)) = true).
  { induction j as [|j IH]; intros Hj Hvj.
    - rewrite (flt_not_fle _ _ Hvj) in H0. discriminate.
    - destruct (flt v (c j)) eqn:E.
      + destruct (IH ltac:(lia) eq_refl) as [i [Hi Hin]].
        exists i. split; [lia|exact Hin].
      + exists j. split; [lia|]. rewrite Hvj, andb_true_r.
        apply fle_total; [|apply rising_defined; lia|exact E].
        apply (fle_defined _ _ H0). }
  destruct (Hgen k (Nat.le_refl k) Hk) as [i [Hi Hin]].
  exists i. split; assumption.
Qed.

(** A value of one of the ranges lies between the first and the last
    bound. *)
Lemma rising_within (v : F) (i : nat) :
  (i < k)%nat -> in_range v (c i) (c (S i)) = true ->
  in_range v (c 0) (c k) = true.
Proof.
  unfold in_range. intros Hi Hv.
  apply andb_true_iff in Hv. destruct Hv as [H1 H2].
  apply andb_true_iff. split.
  - apply (fle_trans _ (c i)); [apply rising_le; lia|exact H1].
  - apply (flt_fle_trans _ (c (S i))); [exact H2|apply rising_le; lia].
Qed.

End Rising.

(** ** Consecutive ranges between decreasing bounds *)

Section Falling.

Variable c : nat -> F.
Variable k : nat.
Hypothesis falling : forall i, (i < k)%nat -> flt (c (S i)) (c i) = true.

Lemma falling_lt (i j : nat) :
  (i < j)%nat -> (j <= k)%nat -> flt (c j) (c i) = true.
Proof.
  intros Hij Hj. induction j as [|j IH]; [lia|].
  assert (Hs : flt (c (S j)) (c j) = true) by (apply falling; lia).
  destruct (Nat.eq_dec i j) as [->|Hne]; [exact Hs|].
  apply (flt_trans _ (c j)); [exact Hs|apply IH; lia].
Qed.

Lemma falling_defined (i : nat) :
  (0 < k)%nat -> (i <= k)%nat -> fle (c i) (c i) = true.
Proof.
  intros Hk Hi. destruct (Nat.eq_dec i k) as [->|Hne].
  - destruct k as [|k']; [lia|].
    apply (flt_defined (c (S k')) (c k')). apply falling. lia.
  - apply (flt_defined (c (S i)) (c i)). apply falling. lia.
Qed.

Lemma falling_le (i j : nat) :
  (i <= j)%nat -> (j <= k)%nat -> (0 < k)%nat -> fle (c j) (c i) = true.
Proof.
  intros Hij Hj Hk. destruct (Nat.eq_dec i j) as [->|Hne].
  - apply falling_defined; assumption.
  - apply flt_fle. apply falling_lt; lia.
Qed.

Lemma falling_unique (v : F) (i j : nat) :
  (i < k)%nat -> (j < k)%nat ->
  in_range v (c (S i)) (c i) = true -> in_range v (c (S j)) (c j) = true ->
  i = j.
Proof.
  unfold in_range. intros Hi Hj Hvi Hvj.
  apply andb_true_iff in Hvi. destruct Hvi as [Hi1 Hi2].
  apply andb_true_iff in Hvj. destruct Hvj as [Hj1 Hj2].
  destruct (Nat.lt_trichotomy i j) as [Hlt|[Heq|Hgt]]; [|exact Heq|].
  - assert (Hle : fle (c j) (c (S i)) = true) by (apply falling_le; lia).
    pose proof (flt_fle_trans _ _ _ Hj2 Hle) as Hc.
    rewrite (flt_not_fle _ _ Hc) in Hi1. discriminate.
  - assert (Hle : fle (c i) (c (S j)) = true) by (apply falling_le; lia).
    pose proof (flt_fle_trans _ _ _ Hi2 Hle) as Hc.
    rewrite (flt_not_fle _ _ Hc) in Hj1. discriminate.
Qed.

Lemma falling_locate (v : F) :
  in_range v (c k) (c 0) = true ->
  exists i, (i < k)%nat /\ in_range v (c (S i)) (c i) = true.
Proof.
  unfold in_range. intro Hv.
  apply andb_true_iff in Hv. destruct Hv as [Hk H0].
  assert (Hgen : forall j, (j <= k)%nat -> fle (c j) v = true ->
            exists i, (i < j)%nat /\ fle (c (S i)) v && flt v (c i) = true).
  { induction j as [|j IH]; intros Hj Hvj.
    - rewrite (flt_not_fle _ _ H0) in Hvj. discriminate.
    - destruct (flt v (c j)) eqn:E.
      + exists j. split; [lia|]. rewrite Hvj, E. reflexivity.
      + assert (Hle : fle (c j) v = true).
        { apply fle_total; [|apply falling_defined; lia|exact E].
          apply (fle_defined _ _ Hvj). }
        destruct (IH ltac:(lia) Hle) as [i [Hi Hin]].
        exists i. split; [lia|exact Hin]. }
  destruct (Hgen k (Nat.le_refl k) Hk) as [i [Hi Hin]].
  exists i. split; assumption.
Qed.

Lemma falling_within (v : F) (i : nat) :
  (i < k)%nat -> in_range v (c (S i)) (c i) = true ->
  in_range v (c k) (c 0) = true.
Proof.
  unfold in_range. intros Hi Hv.
  apply andb_true_iff in Hv. destruct Hv as [H1 H2].
  apply andb_true_iff. split.
  - apply (fle_trans _ (c (S i))); [apply falling_le; lia|exact H1].
  - apply (flt_fle_trans _ (c i)); [exact H2|apply falling_le; lia].
Qed.

End Falling.

End Order.

(** ** The tables of a construction whose loop values increase *)

Section Construction.

Context {F : Type} {arith : Arith F} {order : Ordered F}.

Variable function : F -> F.
Variables lo hi xIncrement : F.
Variable k : nat.

Hypothesis loop : iterations lo hi xIncrement k.
Hypothesis increasing : knots_increasing lo xIncrement k.

Local Abbreviation x_ := (knot lo xIncrement).
Local Abbreviation y_ i := (function (knot lo xIncrement i)).
Local Abbreviation samples := (fun i : nat => function (knot lo xIncrement i)).
Local Abbreviation fwd := (f_of_x_entry function xIncrement).
Local Abbreviation inv := (f_of_y_entry function xIncrement).
Local Abbreviation fwd_table :=
  (insert_all (f_of_x_entry function xIncrement) (knots lo xIncrement k) []).
Local Abbreviation inv_table :=
  (insert_all (f_of_y_entry function xIncrement) (knots lo xIncrement k) []).
Local Abbreviation built :=
  (mkFunctionToPiecewise function fwd_table inv_table).

(** The construction comes to an end and returns the two maps that the [k]
    iterations fill. *)
Lemma construction_completes (n : Z) (fuel : nat) :
  xIncrement = step_of n (lo, hi) -> (k < fuel)%nat ->
  new_FunctionToPiecewise fuel function n (lo, hi) = Some built.
Proof.
  intros Hstep Hfuel. destruct loop as [Hbelow Hstop].
  unfold new_FunctionToPiecewise.
  change (fdiv (fsub (snd (lo, hi)) (fst (lo, hi))) (of_int n))
    with (step_of n (lo, hi)).
  rewrite <- Hstep. cbn [fst snd].
  rewrite !(for_x_runs _ hi xIncrement k fuel lo [] Hbelow Hstop Hfuel).
  reflexivity.
Qed.

Lemma in_fwd (v x : F) :
  in_interval v (fwd x) = in_range v x (fadd x xIncrement).
Proof. reflexivity. Qed.

(** The forward table lists the segments of the slices in the order of the
    loop. *)
Lemma forward_table_shape : fwd_table = map fwd (knots lo xIncrement k).
Proof.
  rewrite insert_all_ascending; [reflexivity| |].
  - intros e x [].
  - apply ForallOrdPairs_map_seq. intros i j _ Hij Hj.
    apply pair_less_of_lt. cbn [fst f_of_x_entry pt_x].
    apply (rising_lt x_ k increasing); lia.
Qed.


Lemma forward_table_length : length fwd_table = k.
Proof.
  rewrite forward_table_shape. unfold knots.
  rewrite !length_map. apply length_seq.
Qed.

Lemma in_forward_table (e : segment F) :
  In e fwd_table <-> exists i, (i < k)%nat /\ e = fwd (x_ i).
Proof.
  rewrite forward_table_shape, in_map_iff. split.
  - intros [x [He Hx]]. apply in_knots in Hx. destruct Hx as [i [Hi Hx]].
    exists i. split; [exact Hi|]. subst x. auto.
  - intros [i [Hi He]]. exists (x_ i). split; [auto|].
    apply in_knots. exists i. auto.
Qed.

(** The forward lookup of a value of slice [i] finds the segment of slice
    [i]. *)
Lemma forward_lookup (x : F) (i : nat) :
  (i < k)%nat -> in_range x (x_ i) (x_ (S i)) = true ->
  find (in_interval x) fwd_table = Some (fwd (x_ i)).
Proof.
  intros Hi Hx. apply find_only.
  - apply in_forward_table. exists i. auto.
  - rewrite in_fwd. exact Hx.
  - intros e' He' Hin. apply in_forward_table in He'.
    destruct He' as [j [Hj He']]. subst e'. rewrite in_fwd in Hin.
    f_equal. f_equal.
    apply (rising_unique x_ k increasing x); assumption.
Qed.

Lemma xToy_in_slice (x : F) (i : nat) :
  (i < k)%nat -> in_range x (x_ i) (x_ (S i)) = true ->
  xToy built x = Ok (evalLinearFunction x (snd (fwd (x_ i)))).
Proof.
  intros Hi Hx. unfold xToy. cbn [f_of_x_fns].
  rewrite (forward_lookup x i Hi Hx). reflexivity.
Qed.

(** The forward query fails exactly outside [[lo, x_k)]. *)
Lemma xToy_fails_iff (x : F) :
  xToy built x = Error x_out_of_interval <->
  in_range x lo (x_ k) = false.
Proof.
  split.
  - intro Herr. destruct (in_range x lo (x_ k)) eqn:E; [|reflexivity].
    destruct (rising_locate x_ k increasing x E) as [i [Hi Hin]].
    rewrite (xToy_in_slice x i Hi Hin) in Herr. discriminate.
  - intro Hout. unfold xToy. cbn [f_of_x_fns].
    rewrite find_nothing; [reflexivity|].
    intros e He. apply in_forward_table in He. destruct He as [i [Hi ->]].
    rewrite in_fwd. destruct (in_range x (x_ i) (fadd (x_ i) xIncrement)) eqn:E;
      [|reflexivity].
    pose proof (rising_within x_ k increasing x i Hi E) as Hw.
    change (in_range x lo (x_ k) = true) in Hw.
    rewrite Hw in Hout. discriminate.
Qed.

Lemma forward_ranges_disjoint : ranges_disjoint fwd_table.
Proof.
  intros v e1 e2 H1 H2 Hv1 Hv2.
  apply in_forward_table in H1. destruct H1 as [i [Hi ->]].
  apply in_forward_table in H2. destruct H2 as [j [Hj ->]].
  rewrite in_fwd in Hv1, Hv2.
  f_equal. f_equal. apply (rising_unique x_ k increasing v); assumption.
Qed.

(** *** The inverse table, for rising samples *)

Section RisingSamples.

Hypothesis rising : samples_increasing function lo xIncrement k.

Lemma rising_key (i : nat) :
  (i < k)%nat -> fst (inv (x_ i)) = (y_ i, y_ (S i)).
Proof.
  intro Hi. pose proof (rising i Hi) as Hlt.
  unfold f_of_y_entry, fgt. cbn [fst pt_y].
  change (fadd (x_ i) xIncrement) with (x_ (S i)).
  rewrite (flt_asym _ _ Hlt), Hlt. reflexivity.
Qed.

Lemma in_rising_inv (v : F) (i : nat) :
  (i < k)%nat -> in_interval v (inv (x_ i)) = in_range v (y_ i) (y_ (S i)).
Proof.
  intro Hi. unfold in_interval. rewrite rising_key by exact Hi. reflexivity.
Qed.

Lemma rising_table_shape : inv_table = map inv (knots lo xIncrement k).
Proof.
  rewrite insert_all_ascending; [reflexivity| |].
  - intros e x [].
  - apply ForallOrdPairs_map_seq. intros i j _ Hij Hj.
    apply pair_less_of_lt. rewrite !rising_key by lia. cbn [fst].
    apply (rising_lt samples k rising); lia.
Qed.

Lemma in_rising_table (e : segment F) :
  In e inv_table <-> exists i, (i < k)%nat /\ e = inv (x_ i).
Proof.
  rewrite rising_table_shape, in_map_iff. split.
  - intros [x [He Hx]]. apply in_knots in Hx. destruct Hx as [i [Hi Hx]].
    exists i. split; [exact Hi|]. subst x. auto.
  - intros [i [Hi He]]. exists (x_ i). split; [auto|].
    apply in_knots. exists i. auto.
Qed.

Lemma rising_lookup (y : F) (i : nat) :
  (i < k)%nat -> in_range y (y_ i) (y_ (S i)) = true ->
  find (in_interval y) inv_table = Some (inv (x_ i)).
Proof.
  intros Hi Hy. apply find_only.
  - apply in_rising_table. exists i. auto.
  - rewrite in_rising_inv by exact Hi. exact Hy.
  - intros e' He' Hin. apply in_rising_table in He'.
    destruct He' as [j [Hj He']]. subst e'.
    rewrite in_rising_inv in Hin by exact Hj.
    f_equal. f_equal. apply (rising_unique samples k rising y); assumption.
Qed.

Lemma rising_yTox_in_range (y : F) (i : nat) :
  (i < k)%nat -> in_range y (y_ i) (y_ (S i)) = true ->
  yTox built y = Ok (evalLinearFunction y (snd (inv (x_ i)))).
Proof.
  intros Hi Hy. unfold yTox. cbn [f_of_y_fns].
  rewrite (rising_lookup y i Hi Hy). reflexivity.
Qed.

Lemma rising_yTox_fails_iff (y : F) :
  yTox built y = Error y_out_of_range <->
  in_range y (function lo) (function (x_ k)) = false.
Proof.
  split.
  - intro Herr. destruct (in_range y (function lo) (function (x_ k))) eqn:E; [|reflexivity].
    destruct (rising_locate samples k rising y E) as [i [Hi Hin]].
    rewrite (rising_yTox_in_range y i Hi Hin) in Herr. discriminate.
  - intro Hout. unfold yTox. cbn [f_of_y_fns].
    rewrite find_nothing; [reflexivity|].
    intros e He. apply in_rising_table in He. destruct He as [i [Hi ->]].
    rewrite in_rising_inv by exact Hi.
    destruct (in_range y (y_ i) (y_ (S i))) eqn:E; [|reflexivity].
    pose proof (rising_within samples k rising y i Hi E) as Hw.
    change (in_range y (function lo) (function (x_ k)) = true) in Hw.
    rewrite Hw in Hout. discriminate.
Qed.

Lemma rising_ranges_disjoint : ranges_disjoint inv_table.
Proof.
  intros v e1 e2 H1 H2 Hv1 Hv2.
  apply in_rising_table in H1. destruct H1 as [i [Hi ->]].
  apply in_rising_table in H2. destruct H2 as [j [Hj ->]].
  rewrite in_rising_inv in Hv1 by exact Hi.
  rewrite in_rising_inv in Hv2 by exact Hj.
  f_equal. f_equal. apply (rising_unique samples k rising v); assumption.
Qed.

End RisingSamples.

(** *** The inverse table, for falling samples *)

Section FallingSamples.

Hypothesis falling : samples_decreasing function lo xIncrement k.

Lemma falling_key (i : nat) :
  (i < k)%nat -> fst (inv (x_ i)) = (y_ (S i), y_ i).
Proof.
  intro Hi. pose proof (falling i Hi) as Hlt.
  unfold f_of_y_entry, fgt. cbn [fst pt_y].
  change (fadd (x_ i) xIncrement) with (x_ (S i)).
  rewrite Hlt. reflexivity.
Qed.

Lemma in_falling_inv (v : F) (i : nat) :
  (i < k)%nat -> in_interval v (inv (x_ i)) = in_range v (y_ (S i)) (y_ i).
Proof.
  intro Hi. unfold in_interval. rewrite falling_key by exact Hi. reflexivity.
Qed.

Lemma falling_table_shape :
  inv_table = rev (map inv (knots lo xIncrement k)).
Proof.
  rewrite insert_all_descending; [apply app_nil_r| |].
  - intros e x [].
  - apply ForallOrdPairs_map_seq. intros i j _ Hij Hj.
    apply pair_less_of_lt. rewrite !falling_key by lia. cbn [fst].
    apply (falling_lt samples k falling); lia.
Qed.

Lemma in_falling_table (e : segment F) :
  In e inv_table <-> exists i, (i < k)%nat /\ e = inv (x_ i).
Proof.
  rewrite falling_table_shape, <- in_rev, in_map_iff. split.
  - intros [x [He Hx]]. apply in_knots in Hx. destruct Hx as [i [Hi Hx]].
    exists i. split; [exact Hi|]. subst x. auto.
  - intros [i [Hi He]]. exists (x_ i). split; [auto|].
    apply in_knots. exists i. auto.
Qed.

Lemma falling_lookup (y : F) (i : nat) :
  (i < k)%nat -> in_range y (y_ (S i)) (y_ i) = true ->
  find (in_interval y) inv_table = Some (inv (x_ i)).
Proof.
  intros Hi Hy. apply find_only.
  - apply in_falling_table. exists i. auto.
  - rewrite in_falling_inv by exact Hi. exact Hy.
  - intros e' He' Hin. apply in_falling_table in He'.
    destruct He' as [j [Hj He']]. subst e'.
    rewrite in_falling_inv in Hin by exact Hj.
    f_equal. f_equal. apply (falling_unique samples k falling y); assumption.
Qed.

Lemma falling_yTox_in_range (y : F) (i : nat) :
  (i < k)%nat -> in_range y (y_ (S i)) (y_ i) = true ->
  yTox built y = Ok (evalLinearFunction y (snd (inv (x_ i)))).
Proof.
  intros Hi Hy. unfold yTox. cbn [f_of_y_fns].
  rewrite (falling_lookup y i Hi Hy). reflexivity.
Qed.

Lemma falling_yTox_fails_iff (y : F) :
  yTox built y = Error y_out_of_range <->
  in_range y (function (x_ k)) (function lo) = false.
Proof.
  split.
  - intro Herr. destruct (in_range y (function (x_ k)) (function lo)) eqn:E; [|reflexivity].
    destruct (falling_locate samples k falling y E) as [i [Hi Hin]].
    rewrite (falling_yTox_in_range y i Hi Hin) in Herr. discriminate.
  - intro Hout. unfold yTox. cbn [f_of_y_fns].
    rewrite find_nothing; [reflexivity|].
    intros e He. apply in_falling_table in He. destruct He as [i [Hi ->]].
    rewrite in_falling_inv by exact Hi.
    destruct (in_range y (y_ (S i)) (y_ i)) eqn:E; [|reflexivity].
    pose proof (falling_within samples k falling y i Hi E) as Hw.
    change (in_range y (function (x_ k)) (function lo) = true) in Hw.
    rewrite Hw in Hout. discriminate.
Qed.

Lemma falling_ranges_disjoint : ranges_disjoint inv_table.
Proof.
  intros v e1 e2 H1 H2 Hv1 Hv2.
  apply in_falling_table in H1. destruct H1 as [i [Hi ->]].
  apply in_falling_table in H2. destruct H2 as [j [Hj ->]].
  rewrite in_falling_inv in Hv1 by exact Hi.
  rewrite in_falling_inv in Hv2 by exact Hj.
  f_equal. f_equal. apply (falling_unique samples k falling v); assumption.
Qed.

End FallingSamples.

End Construction.

(** * The properties of the specification *)

(** ** Concrete runs of the code, in binary32 *)

(** C1: for [Func1] ([f(x) = 2x]), one segment and the interval (0, 5), the
    forward query returns 2 on 1 and 0 on 0, and fails on 5 with the error of
    a value outside the interval. *)
Theorem test_case_one_segment :
  let piecewise := new_FunctionToPiecewise 2 Func1 1 (f32 0, f32 5) in
  query (fun p => xToy p (f32 1)) piecewise = Some (Ok (f32 2)) /\
  query (fun p => xToy p (f32 0)) piecewise = Some (Ok (f32 0)) /\
  query (fun p => xToy p (f32 5)) piecewise = Some (Error x_out_of_interval).
Proof. vm_compute. repeat split. Qed.

(** C4, at the input where the code departs from it: with [Func1], ten
    segments and the interval (0, 1), the loop variable reaches
    [8388609 * 2^-23 > 1] after ten additions of the rounded step, the last
    range ends there, and the forward query on [hi = 1] returns 2 instead of
    failing. *)
Theorem forward_query_at_upper_bound_answers :
  let piecewise := new_FunctionToPiecewise 11 Func1 10 (f32 0, f32 1) in
  option_map (fun p => length (f_of_x_fns p)) piecewise = Some 10%nat /\
  option_map (fun p => option_map (fun e => snd (fst e))
                                  (nth_error (f_of_x_fns p) 9)) piecewise =
    Some (Some (S754_finite false 8388609 (-23))) /\
  flt (f32 1) (S754_finite false 8388609 (-23)) = true /\
  query (fun p => xToy p (f32 1)) piecewise = Some (Ok (f32 2)).
Proof. vm_compute. repeat split. Qed.

(** C8, at an input where the code departs from it: for the constant
    function 3, one segment and the interval (0, 5) the slice is flat.  The
    construction does not fail and does not omit the segment: it divides by
    the zero slope, [1 / 0 = +inf] and [(-1 * 3) / 0 = -inf], and inserts the
    segment with these coefficients under the key of the default pair,
    (0, 0).  That key is an empty range, and the inverse query on 3 finds no
    segment. *)
Theorem flat_slice_divides_by_zero :
  let piecewise := new_FunctionToPiecewise 2 constant3 1 (f32 0, f32 5) in
  option_map tables piecewise =
    Some ([((f32 0, f32 5), mkLineFunc (f32 0) (f32 3))],
          [((f32 0, f32 0),
            mkLineFunc (S754_infinity false) (S754_infinity true))]) /\
  getLineFuncSlope (mkPoint (f32 0) (constant3 (f32 0)))
                   (mkPoint (f32 5) (constant3 (f32 5))) = f32 0 /\
  fdiv (f32 1) (f32 0) = S754_infinity false /\
  fdiv (fmul (f32 (-1)) (f32 3)) (f32 0) = S754_infinity true /\
  query (fun p => yTox p (f32 3)) piecewise = Some (Error y_out_of_range).
Proof. vm_compute. repeat split. Qed.

(** The key of the default pair is the empty range [[0, 0)]: no inverse query
    selects the segment of a flat slice. *)
Lemma default_key_never_matches (v : float32) (l : LineFunc float32) :
  in_interval v (default_pair, l) = false.
Proof. destruct v as [s|s| |s m e]; try destruct s; reflexivity. Qed.


(** C3 fails where two slices have the same y-range: for [f(x) = |x|], three
    segments and the interval (-2, 1), the slices [[-1, 0)] and [[0, 1)] both
    give the key (0, 1) and the map keeps the first.  The point 0.5 lies
    strictly inside, on a slice of slope 1 where [f] is linear; the forward
    query returns 0.5 and the inverse query on 0.5 returns -0.5. *)
Lemma roundtrip_fails_on_repeated_range :
  let piecewise :=
    new_FunctionToPiecewise 4 absolute 3 (f32 (-2), f32 1) in
  option_map (fun p => option_map (fun fn => (fst fn, slope (snd fn)))
                                  (find (in_interval half) (f_of_x_fns p)))
             piecewise = Some (Some ((f32 0, f32 1), f32 1)) /\
  query (fun p => xToy p half) piecewise = Some (Ok half) /\
  query (fun p => yTox p half) piecewise = Some (Ok minus_half) /\
  half <> minus_half.
Proof. vm_compute. repeat split. discriminate. Qed.

(** C6 fails for the inverse table of a function that is not monotonic: for
    [f(x) = x * x], two segments and the interval (-2, 1), the inverse ranges
    are [[0.25, 1)] and [[0.25, 4)], and 0.5 lies in both. *)
Lemma inverse_ranges_overlap :
  exists p,
    new_FunctionToPiecewise 3 square 2 (f32 (-2), f32 1) =
    Some p /\
    ~ ranges_disjoint (f_of_y_fns p).
Proof.
  eexists. split; [vm_compute; reflexivity|].
  intro Hd.
  specialize (Hd half _ _ (or_introl eq_refl) (or_intror (or_introl eq_refl))
                 eq_refl eq_refl).
  discriminate Hd.
Qed.

(** C7 fails: the constructor has no check.  For the interval (5, 0) the
    construction completes with two empty maps; for segment count 0 it
    completes with one segment on [[0, +inf)] whose coefficients are NaN. *)
Lemma construction_without_validation :
  option_map tables
    (new_FunctionToPiecewise 1 Func1 1 (f32 5, f32 0)) =
  Some ([], []) /\
  option_map tables
    (new_FunctionToPiecewise 2 Func1 0 (f32 0, f32 5)) =
  Some ([((f32 0, S754_infinity false), mkLineFunc S754_nan S754_nan)],
        [((f32 0, S754_infinity false), mkLineFunc S754_nan S754_nan)]).
Proof. vm_compute. split; reflexivity. Qed.


(** C5, at inputs where the code departs from it.  With [Func1], twelve
    segments and the interval (0, 1), the loop variable after twelve
    additions of the rounded step is [16777214 * 2^-24 < 1], so the loop
    runs a thirteenth time: the forward table has thirteen ranges, the last
    one is [[0.99999988, 1.0833334)] and reaches beyond [hi], and the forward
    query on [hi = 1] is answered from it.  With two segments and the
    interval (16777216, 16777218) the step 1 is absorbed by the loop
    variable and no table is ever built. *)
Theorem forward_ranges_do_not_tile :
  let piecewise := new_FunctionToPiecewise 14 Func1 12 (f32 0, f32 1) in
  option_map (fun p => length (f_of_x_fns p)) piecewise = Some 13%nat /\
  option_map (fun p => option_map fst (nth_error (f_of_x_fns p) 12))
             piecewise =
    Some (Some (S754_finite false 16777214 (-24),
                S754_finite false 9087658 (-23))) /\
  flt (S754_finite false 16777214 (-24)) (f32 1) = true /\
  flt (f32 1) (S754_finite false 9087658 (-23)) = true /\
  query (fun p => xToy p (f32 1)) piecewise = Some (Ok (f32 2)) /\
  (forall fuel,
     new_FunctionToPiecewise fuel Func1 2 (f32 16777216, f32 16777218) =
     None).
Proof.
  split; [vm_compute; reflexivity|].
  split; [vm_compute; reflexivity|].
  split; [vm_compute; reflexivity|].
  split; [vm_compute; reflexivity|].
  split; [vm_compute; reflexivity|].
  intro fuel. unfold new_FunctionToPiecewise.
  change (fdiv (fsub (snd (f32 16777216, f32 16777218))
                     (fst (f32 16777216, f32 16777218))) (of_int 2))
    with (step_of 2 (f32 16777216, f32 16777218)).
  cbn [fst snd].
  rewrite (for_x_stuck _ (f32 16777218)
             (step_of 2 (f32 16777216, f32 16777218)) (f32 16777216));
    reflexivity.
Qed.


(** The forward query of a linear function is not the function in floating
    point: for [f(x) = m * x + 1] with [m = 1.0f / 3.0f], one segment and
    the interval (0, 1), the slope of the segment is computed as
    [11184812 * 2^-25], one unit in the last place above [m], and the
    forward query on 0.5 returns [9786710 * 2^-23] where [f(0.5)] is
    [9786709 * 2^-23]. *)
Lemma linear_forward_query_rounds :
  let m := fdiv (f32 1) (f32 3) in
  let piecewise :=
    new_FunctionToPiecewise 2 (linear m (f32 1)) 1 (f32 0, f32 1) in
  m = S754_finite false 11184811 (-25) /\
  option_map (fun p => map (fun e => slope (snd e)) (f_of_x_fns p)) piecewise =
    Some [S754_finite false 11184812 (-25)] /\
  query (fun p => xToy p half) piecewise =
    Some (Ok (S754_finite false 9786710 (-23))) /\
  linear m (f32 1) half = S754_finite false 9786709 (-23).
Proof. vm_compute. repeat split. Qed.

(** The round trip is not the identity in floating point: for
    [f(x) = x + 100], one segment and the interval (0, 1), the forward query
    on [x = 0.99999994] rounds to 101, the sample of the upper bound, which is
    the excluded end of the only inverse range: the inverse query on it
    fails. *)
Lemma roundtrip_rounds_out_of_range :
  let piecewise :=
    new_FunctionToPiecewise 2 (linear (f32 1) (f32 100)) 1 (f32 0, f32 1) in
  let x := S754_finite false 16777215 (-24) in
  flt (f32 0) x = true /\ flt x (f32 1) = true /\
  query (fun p => xToy p x) piecewise = Some (Ok (f32 101)) /\
  query (fun p => yTox p (f32 101)) piecewise = Some (Error y_out_of_range).
Proof. vm_compute. repeat split. Qed.

(** ** The tables of a completed construction, in binary32 *)


(** C6, as the code has it: in a completed construction whose loop values
    increase, the ranges of the forward table are pairwise disjoint, and the
    ranges of the inverse table are pairwise disjoint when the samples of
    the slices that the loop builds are strictly increasing, or strictly
    decreasing. *)
Theorem ranges_disjoint_for_monotonic_samples
        (function : float32 -> float32) (n : Z) (lo hi : float32)
        (k fuel : nat) :
  let xIncrement := step_of n (lo, hi) in
  iterations lo hi xIncrement k ->
  knots_increasing lo xIncrement k ->
  (k < fuel)%nat ->
  exists p,
    new_FunctionToPiecewise fuel function n (lo, hi) = Some p /\
    ranges_disjoint (f_of_x_fns p) /\
    (samples_increasing function lo xIncrement k \/
     samples_decreasing function lo xIncrement k ->
     ranges_disjoint (f_of_y_fns p)).
Proof.
  intros xIncrement Hloop Hinc Hfuel.
  eexists. split.
  - apply (construction_completes function lo hi xIncrement k Hloop n fuel
             eq_refl Hfuel).
  - cbn [f_of_x_fns f_of_y_fns]. split.
    + apply forward_ranges_disjoint. exact Hinc.
    + intros [Hup|Hdown].
      * apply rising_ranges_disjoint. exact Hup.
      * apply falling_ranges_disjoint. exact Hdown.
Qed.

(** The range key of the inverse segment of a slice with ordered samples. *)
Lemma sample_range_rising (y0 y1 : float32) :
  flt y0 y1 = true -> fmin y0 y1 = y0 /\ fmax y0 y1 = y1.
Proof.
  intro Hlt. unfold fmin, fmax. rewrite Hlt, (flt_asym _ _ Hlt).
  split; reflexivity.
Qed.

Lemma sample_range_falling (y0 y1 : float32) :
  flt y1 y0 = true -> fmin y0 y1 = y1 /\ fmax y0 y1 = y0.
Proof.
  intro Hlt. unfold fmin, fmax. rewrite Hlt, (flt_asym _ _ Hlt).
  split; reflexivity.
Qed.

(** The inverse query on a value of the sample range of a slice is answered
    by the inverse segment of that slice, for monotonic samples. *)
Lemma inverse_lookup_in_sample_range
      (function : float32 -> float32) (lo hi xIncrement : float32)
      (k i : nat) (y : float32) :
  let x0 := knot lo xIncrement i in
  let x1 := knot lo xIncrement (S i) in
  samples_increasing function lo xIncrement k \/
  samples_decreasing function lo xIncrement k ->
  (i < k)%nat ->
  in_range y (fmin (function x0) (function x1))
             (fmax (function x0) (function x1)) = true ->
  yTox (mkFunctionToPiecewise function
          (insert_all (f_of_x_entry function xIncrement)
                      (knots lo xIncrement k) [])
          (insert_all (f_of_y_entry function xIncrement)
                      (knots lo xIncrement k) [])) y =
  Ok (evalLinearFunction y (snd (f_of_y_entry function xIncrement x0))).
Proof.
  intros x0 x1 [Hup|Hdown] Hi Hy.
  - destruct (sample_range_rising _ _ (Hup i Hi)) as [Emin Emax].
    fold x0 x1 in Emin, Emax. rewrite Emin, Emax in Hy.
    apply (rising_yTox_in_range function lo xIncrement k Hup y i Hi Hy).
  - destruct (sample_range_falling _ _ (Hdown i Hi)) as [Emin Emax].
    fold x0 x1 in Emin, Emax. rewrite Emin, Emax in Hy.
    apply (falling_yTox_in_range function lo xIncrement k Hdown y i Hi Hy).
Qed.

(** C3, as the code has it: in a completed construction whose loop values
    increase and whose samples are strictly increasing, or strictly
    decreasing, the forward query on a value [x] of slice [i] returns
    [y = s * x + c] for the forward coefficients [(s, c)] of the slice, and,
    when [y] lies in the sample range of that slice, the inverse query on
    [y] returns [(1 / s) * y + (-1 * c) / s]: the inverse line of the same
    slice, applied to the forward value. *)
Theorem roundtrip_on_monotonic_samples
        (function : float32 -> float32) (n : Z) (lo hi : float32)
        (k fuel i : nat) (x : float32) :
  let xIncrement := step_of n (lo, hi) in
  let x0 := knot lo xIncrement i in
  let x1 := knot lo xIncrement (S i) in
  let forward :=
    line_through (mkPoint x0 (function x0)) (mkPoint x1 (function x1)) in
  let inverse :=
    mkLineFunc (fdiv (of_int 1) (slope forward))
               (fdiv (fmul (of_int (-1)) (yint forward)) (slope forward)) in
  let y := evalLinearFunction x forward in
  iterations lo hi xIncrement k ->
  knots_increasing lo xIncrement k ->
  (k < fuel)%nat ->
  samples_increasing function lo xIncrement k \/
  samples_decreasing function lo xIncrement k ->
  (i < k)%nat ->
  in_range x x0 x1 = true ->
  exists p,
    new_FunctionToPiecewise fuel function n (lo, hi) = Some p /\
    xToy p x = Ok y /\
    (in_range y (fmin (function x0) (function x1))
                (fmax (function x0) (function x1)) = true ->
     yTox p y = Ok (evalLinearFunction y inverse)).
Proof.
  intros xIncrement x0 x1 forward inverse y Hloop Hinc Hfuel Hmono Hi Hx.
  eexists. split.
  - apply (construction_completes function lo hi xIncrement k Hloop n fuel
             eq_refl Hfuel).
  - split.
    + apply (xToy_in_slice function lo xIncrement k Hinc x i Hi Hx).
    + intro Hy.
      apply (inverse_lookup_in_sample_range function lo hi xIncrement k i y
               Hmono Hi Hy).
Qed.


(** ** The constructor, for every arithmetic *)

(** C7, as the code has it: the constructor checks neither the segment count
    nor the interval and reports no error.  When the interval is not ordered
    ([lo < hi] is false) the construction completes, for every segment
    count, with two empty maps; every forward query on the object then fails
    with the error of a value outside the interval and every inverse query
    with the error of a value outside the range. *)
Theorem unordered_interval_builds_empty_tables {F : Type} `{Arith F}
        (fuel : nat) (function : F -> F) (n : Z)
        (lo hi : F) :
  flt lo hi = false ->
  exists p,
    new_FunctionToPiecewise (S fuel) function n (lo, hi) = Some p /\
    f_of_x_fns p = [] /\ f_of_y_fns p = [] /\
    (forall x, xToy p x = Error x_out_of_interval) /\
    (forall y, yTox p y = Error y_out_of_range).
Proof.
  intro Hc. eexists. split.
  - unfold new_FunctionToPiecewise. cbn [fst snd].
    rewrite !for_x_none_to_do by exact Hc. reflexivity.
  - repeat split.
Qed.

(** Samples that [SFcompare] orders are below one another one way only. *)
Lemma SFcompare_flip (a b : float32) :
  SFcompare b a = option_map CompOpp (SFcompare a b).
Proof.
  destruct a as [sa|sa| |sa ma ea], b as [sb|sb| |sb mb eb]; simpl;
    try destruct sa; try destruct sb; try reflexivity.
  all: rewrite (Z.compare_antisym eb ea).
  all: destruct (eb ?= ea)%Z; simpl; try reflexivity.
  all: pose proof (Pos.compare_cont_antisym ma mb Eq) as E; simpl in E.
  all: rewrite <- E; try rewrite CompOpp_involutive; reflexivity.
Qed.

Lemma binary32_distinct_ordered (a b : float32) :
  SFcompare a b = Some Lt \/ SFcompare a b = Some Gt ->
  flt a b = negb (flt b a).
Proof.
  intro Hcmp. simpl. unfold SFltb. rewrite (SFcompare_flip a b).
  destruct Hcmp as [-> | ->]; reflexivity.
Qed.


(** ** Instances *)

(** The construction for two segments over (0, 1), in binary32: the loop
    values are 0, 0.5 and 1. *)
Lemma unit_interval_two_slices :
  iterations (f32 0) (f32 1) (step_of 2 (f32 0, f32 1)) 2 /\
  knots_increasing (f32 0) (step_of 2 (f32 0, f32 1)) 2.
Proof.
  split; [split|].
  - intros j Hj. destruct j as [|[|j]];
      [vm_compute; reflexivity|vm_compute; reflexivity|lia].
  - vm_compute. reflexivity.
  - intros j Hj. destruct j as [|[|j]];
      [vm_compute; reflexivity|vm_compute; reflexivity|lia].
Defined.

Lemma Func1_samples_increasing :
  samples_increasing Func1 (f32 0) (step_of 2 (f32 0, f32 1)) 2.
Proof.
  intros j Hj. destruct j as [|[|j]];
      [vm_compute; reflexivity|vm_compute; reflexivity|lia].
Defined.




(** C6 for [Func1], two segments and the interval (0, 1). *)
Lemma ranges_disjoint_for_monotonic_samples_witness :
  exists p,
    new_FunctionToPiecewise 3 Func1 2 (f32 0, f32 1) = Some p /\
    ranges_disjoint (f_of_x_fns p) /\ ranges_disjoint (f_of_y_fns p).
Proof.
  assert (Hfuel : (2 < 3)%nat) by lia.
  destruct (ranges_disjoint_for_monotonic_samples Func1 2 (f32 0) (f32 1) 2 3
              (proj1 unit_interval_two_slices)
              (proj2 unit_interval_two_slices) Hfuel) as [p [Hp [Hx Hy]]].
  exists p. split; [exact Hp|]. split; [exact Hx|].
  apply Hy. left. exact Func1_samples_increasing.
Defined.

(** The round trip of C3 for [Func1], two segments, the interval (0, 1) and
    the point 0.75: the forward query returns 1.5 and the inverse query on
    1.5 returns 0.75. *)
Lemma roundtrip_on_monotonic_samples_witness :
  exists p,
    new_FunctionToPiecewise 3 Func1 2 (f32 0, f32 1) = Some p /\
    xToy p three_quarters = Ok (fdiv (f32 3) (f32 2)) /\
    yTox p (fdiv (f32 3) (f32 2)) = Ok three_quarters.
Proof.
  assert (Hfuel : (2 < 3)%nat) by lia.
  assert (Hi : (1 < 2)%nat) by lia.
  assert (Hx : in_range three_quarters
                 (knot (f32 0) (step_of 2 (f32 0, f32 1)) 1)
                 (knot (f32 0) (step_of 2 (f32 0, f32 1)) 2) = true)
    by (vm_compute; reflexivity).
  destruct (roundtrip_on_monotonic_samples Func1 2 (f32 0) (f32 1) 2 3 1
              three_quarters
              (proj1 unit_interval_two_slices)
              (proj2 unit_interval_two_slices) Hfuel
              (or_introl Func1_samples_increasing) Hi Hx)
    as [p [Hp [Hfwd Hinv]]].
  exists p. split; [exact Hp|]. split.
  - rewrite Hfwd. vm_compute. reflexivity.
  - assert (Hy : in_range
                   (evalLinearFunction three_quarters
                      (line_through
                         (mkPoint (knot (f32 0) (step_of 2 (f32 0, f32 1)) 1)
                            (Func1 (knot (f32 0) (step_of 2 (f32 0, f32 1)) 1)))
                         (mkPoint (knot (f32 0) (step_of 2 (f32 0, f32 1)) 2)
                            (Func1 (knot (f32 0) (step_of 2 (f32 0, f32 1)) 2)))))
                   (fmin (Func1 (knot (f32 0) (step_of 2 (f32 0, f32 1)) 1))
                         (Func1 (knot (f32 0) (step_of 2 (f32 0, f32 1)) 2)))
                   (fmax (Func1 (knot (f32 0) (step_of 2 (f32 0, f32 1)) 1))
                         (Func1 (knot (f32 0) (step_of 2 (f32 0, f32 1)) 2))) =
                 true) by (vm_compute; reflexivity).
    specialize (Hinv Hy).
    change (yTox p (fdiv (f32 3) (f32 2)) = Ok three_quarters).
    etransitivity; [|etransitivity; [exact Hinv|]];
      [f_equal; vm_compute; reflexivity|vm_compute; reflexivity].
Defined.


(** C7 for [Func1], one segment and the interval (5, 0), in binary32. *)
Lemma unordered_interval_builds_empty_tables_witness :
  flt (f32 5) (f32 0) = false /\
  exists p,
    new_FunctionToPiecewise 1 Func1 1 (f32 5, f32 0) = Some p /\
    f_of_x_fns p = [] /\ f_of_y_fns p = [] /\
    (forall x, xToy p x = Error x_out_of_interval) /\
    (forall y, yTox p y = Error y_out_of_range).
Proof.
  assert (Hc : flt (f32 5) (f32 0) = false) by reflexivity.
  split; [exact Hc|].
  exact (unordered_interval_builds_empty_tables 0 Func1 1
           (f32 5) (f32 0) Hc).
Defined.


(** * Further properties of the constructor and of the queries *)

(** ** For every arithmetic *)

Section Lookup.

Context {F : Type} `{Arith F}.

Lemma find_first_match (v : F) (m : table F) (fn : segment F) :
  find (in_interval v) m = Some fn <-> first_match v m fn.
Proof.
  split.
  - induction m as [|a m IH]; simpl; intro Hf; [discriminate|].
    destruct (in_interval v a) eqn:Ea.
    + injection Hf as <-. exists [], m. repeat split; [exact Ea|intros e []].
    + destruct (IH Hf) as [l1 [l2 [Hm [Hin Hl1]]]].
      exists (a :: l1), l2. split; [rewrite Hm; reflexivity|].
      split; [exact Hin|].
      intros e [<-|He]; [exact Ea|apply Hl1; exact He].
  - intros [l1 [l2 [-> [Hin Hl1]]]].
    induction l1 as [|a l1 IH]; simpl.
    + rewrite Hin. reflexivity.
    + rewrite (Hl1 a (or_introl eq_refl)). apply IH.
      intros e He. apply Hl1. right. exact He.
Qed.

Lemma find_none_iff (v : F) (m : table F) :
  find (in_interval v) m = None <->
  forall e, In e m -> in_interval v e = false.
Proof.
  split.
  - intros Hn e He. exact (find_none _ _ Hn e He).
  - apply find_nothing.
Qed.

(** X1: a query fails exactly when no stored range holds the value; when it
    returns a value, the value is the evaluation of the first segment, in
    the order of the map, whose range holds the query value.  For [xToy] on
    the forward table and for [yTox] on the inverse table. *)
Theorem query_takes_first_matching_range (p : FunctionToPiecewise F) (a : F) :
  (xToy p a = Error x_out_of_interval <->
   forall e, In e (f_of_x_fns p) -> in_interval a e = false) /\
  (forall v, xToy p a = Ok v <->
     exists fn, first_match a (f_of_x_fns p) fn /\
                v = evalLinearFunction a (snd fn)) /\
  (yTox p a = Error y_out_of_range <->
   forall e, In e (f_of_y_fns p) -> in_interval a e = false) /\
  (forall v, yTox p a = Ok v <->
     exists fn, first_match a (f_of_y_fns p) fn /\
                v = evalLinearFunction a (snd fn)).
Proof.
  unfold xToy, yTox. repeat split.
  - intros Herr. apply find_none_iff.
    destruct (find (in_interval a) (f_of_x_fns p)); [discriminate|reflexivity].
  - intro Hall. apply find_none_iff in Hall. rewrite Hall. reflexivity.
  - intro Hok. destruct (find (in_interval a) (f_of_x_fns p)) as [fn|] eqn:Ef;
      [|discriminate].
    injection Hok as <-. exists fn. split; [apply find_first_match; exact Ef|].
    reflexivity.
  - intros [fn [Hfm ->]]. apply find_first_match in Hfm. rewrite Hfm.
    reflexivity.
  - intros Herr. apply find_none_iff.
    destruct (find (in_interval a) (f_of_y_fns p)); [discriminate|reflexivity].
  - intro Hall. apply find_none_iff in Hall. rewrite Hall. reflexivity.
  - intro Hok. destruct (find (in_interval a) (f_of_y_fns p)) as [fn|] eqn:Ef;
      [|discriminate].
    injection Hok as <-. exists fn. split; [apply find_first_match; exact Ef|].
    reflexivity.
  - intros [fn [Hfm ->]]. apply find_first_match in Hfm. rewrite Hfm.
    reflexivity.
Qed.

End Lookup.

(** X2: when the loop variable, at the start of some iteration, is below the
    upper bound and adding the step leaves it unchanged, the constructor
    never returns: the construction runs out of every amount of fuel. *)
Theorem construction_hangs_when_step_is_absorbed {F : Type} `{Arith F}
        (function : F -> F) (n : Z) (lo hi : F) (i : nat) :
  (forall j, (j <= i)%nat ->
     flt (knot lo (step_of n (lo, hi)) j) hi = true) ->
  fadd (knot lo (step_of n (lo, hi)) i) (step_of n (lo, hi)) =
  knot lo (step_of n (lo, hi)) i ->
  forall fuel, new_FunctionToPiecewise fuel function n (lo, hi) = None.
Proof.
  intros Hbelow Hfix fuel. unfold new_FunctionToPiecewise.
  change (fdiv (fsub (snd (lo, hi)) (fst (lo, hi))) (of_int n))
    with (step_of n (lo, hi)).
  cbn [fst snd].
  rewrite (for_x_stuck_later _ hi (step_of n (lo, hi)) i lo fuel [] Hbelow Hfix).
  reflexivity.
Qed.

(** In binary32, [16777216 + 1] rounds to [16777216]: two segments over
    (16777216, 16777218) are never built. *)
Lemma construction_hangs_when_step_is_absorbed_witness :
  fadd (f32 16777216) (step_of 2 (f32 16777216, f32 16777218)) =
  f32 16777216 /\
  new_FunctionToPiecewise 1000 Func1 2 (f32 16777216, f32 16777218) = None.
Proof.
  assert (Hfix : fadd (knot (f32 16777216)
                         (step_of 2 (f32 16777216, f32 16777218)) 0)
                      (step_of 2 (f32 16777216, f32 16777218)) =
                 knot (f32 16777216)
                      (step_of 2 (f32 16777216, f32 16777218)) 0)
    by reflexivity.
  split; [exact Hfix|].
  apply (construction_hangs_when_step_is_absorbed
           Func1 2 (f32 16777216) (f32 16777218) 0); [|exact Hfix].
  intros j Hj. assert (E : j = 0%nat) by lia. rewrite E. reflexivity.
Defined.

(** X3: when the construction completes, both loops have run the same number
    [k] of iterations, on the loop values [x_0 .. x_(k-1)] that are below the
    upper bound; each table holds at most [k] segments, every stored segment
    is the segment that the loop body builds for one of these loop values,
    and the segment of the first iteration is stored in each table. *)
Theorem completed_construction_stores_slices {F : Type} `{Arith F}
        (fuel : nat) (function : F -> F) (n : Z) (lo hi : F)
        (p : FunctionToPiecewise F) :
  new_FunctionToPiecewise fuel function n (lo, hi) = Some p ->
  exists k,
    flt (knot lo (step_of n (lo, hi)) k) hi = false /\
    (forall j, (j < k)%nat ->
       flt (knot lo (step_of n (lo, hi)) j) hi = true) /\
    (length (f_of_x_fns p) <= k)%nat /\
    (length (f_of_y_fns p) <= k)%nat /\
    (forall e, In e (f_of_x_fns p) ->
       exists j, (j < k)%nat /\
         e = f_of_x_entry function (step_of n (lo, hi))
                          (knot lo (step_of n (lo, hi)) j)) /\
    (forall e, In e (f_of_y_fns p) ->
       exists j, (j < k)%nat /\
         e = f_of_y_entry function (step_of n (lo, hi))
                          (knot lo (step_of n (lo, hi)) j)) /\
    ((0 < k)%nat ->
       In (f_of_x_entry function (step_of n (lo, hi)) lo) (f_of_x_fns p) /\
       In (f_of_y_entry function (step_of n (lo, hi)) lo) (f_of_y_fns p)).
Proof.
  intro Hnew. unfold new_FunctionToPiecewise in Hnew.
  change (fdiv (fsub (snd (lo, hi)) (fst (lo, hi))) (of_int n))
    with (step_of n (lo, hi)) in Hnew.
  cbn [fst snd] in Hnew.
  destruct (for_x (f_of_x_entry _ _) _ _ _ _ _) as [fx|] eqn:Hx;
    [|discriminate].
  destruct (for_x (f_of_y_entry _ _) _ _ _ _ _) as [fy|] eqn:Hy;
    [|discriminate].
  injection Hnew as <-. cbn [f_of_x_fns f_of_y_fns].
  destruct (for_x_result _ _ _ _ _ _ _ Hx) as [k [Hfx [Hstop Hbelow]]].
  destruct (for_x_result _ _ _ _ _ _ _ Hy) as [k' [Hfy [Hstop' Hbelow']]].
  assert (Hk : k' = k)
    by (apply (iterations_unique hi (step_of n (lo, hi)) lo); assumption).
  subst k'. exists k.
  assert (Hlen : length (knots lo (step_of n (lo, hi)) k) = k)
    by (unfold knots; rewrite length_map; apply length_seq).
  split; [exact Hstop|]. split; [exact Hbelow|].
  split; [|split; [|split; [|split]]].
  - rewrite Hfx. pose proof (insert_all_length
      (f_of_x_entry function (step_of n (lo, hi)))
      (knots lo (step_of n (lo, hi)) k) []) as Hl.
    simpl in Hl. lia.
  - rewrite Hfy. pose proof (insert_all_length
      (f_of_y_entry function (step_of n (lo, hi)))
      (knots lo (step_of n (lo, hi)) k) []) as Hl.
    simpl in Hl. lia.
  - intros e He. rewrite Hfx in He.
    destruct (insert_all_adds _ _ _ _ He) as [[]|[x [Hx' ->]]].
    apply in_knots in Hx'. destruct Hx' as [j [Hj ->]]. exists j. auto.
  - intros e He. rewrite Hfy in He.
    destruct (insert_all_adds _ _ _ _ He) as [[]|[x [Hx' ->]]].
    apply in_knots in Hx'. destruct Hx' as [j [Hj ->]]. exists j. auto.
  - intro Hpos. destruct k as [|k]; [lia|].
    rewrite Hfx, Hfy, knots_cons. split; apply insert_all_first.
Qed.

(** The test construction of [test.cpp], in binary32: one iteration. *)
Lemma completed_construction_stores_slices_witness :
  exists p k,
    new_FunctionToPiecewise 2 Func1 1 (f32 0, f32 5) = Some p /\
    (length (f_of_x_fns p) <= k)%nat /\ (length (f_of_y_fns p) <= k)%nat /\
    flt (knot (f32 0) (step_of 1 (f32 0, f32 5)) k) (f32 5) = false.
Proof.
  set (tx := [((f32 0, f32 5), mkLineFunc (f32 2) (f32 0))]).
  set (ty := [((f32 0, f32 10),
               mkLineFunc (fdiv (f32 1) (f32 2)) (S754_zero true))]).
  assert (Hnew : new_FunctionToPiecewise 2 Func1 1 (f32 0, f32 5) =
                 Some (mkFunctionToPiecewise Func1 tx ty))
    by (vm_compute; reflexivity).
  destruct (completed_construction_stores_slices 2 Func1 1 (f32 0) (f32 5)
              _ Hnew) as [k [Hstop [_ [Hlx [Hly _]]]]].
  exists (mkFunctionToPiecewise Func1 tx ty), k.
  split; [exact Hnew|]. split; [exact Hlx|]. split; [exact Hly|exact Hstop].
Defined.

(** ** In binary32 *)

(** X4: a NaN is in no range: on every object the forward and the inverse
    query on NaN fail, and a stored range one of whose bounds is NaN holds
    no value. *)
Theorem nan_is_out_of_every_range (p : FunctionToPiecewise float32) :
  xToy p S754_nan = Error x_out_of_interval /\
  yTox p S754_nan = Error y_out_of_range /\
  (forall (v a : float32) (l : LineFunc float32),
     in_interval v ((S754_nan, a), l) = false /\
     in_interval v ((a, S754_nan), l) = false).
Proof.
  assert (Hnan : forall fn : segment float32,
             in_interval S754_nan fn = false).
  { intros [[a b] l]. destruct a; reflexivity. }
  split; [|split].
  - unfold xToy. rewrite find_nothing; [reflexivity|]. intros e _. apply Hnan.
  - unfold yTox. rewrite find_nothing; [reflexivity|]. intros e _. apply Hnan.
  - intros v a l. split.
    + unfold in_interval. cbn [fst snd]. apply andb_false_iff. left.
      destruct v; reflexivity.
    + unfold in_interval. cbn [fst snd]. apply andb_false_iff. right.
      destruct v; reflexivity.
Qed.

(** X5: for a flat slice (neither sample is greater than the other, as for
    equal samples and for a NaN sample) the second loop inserts its segment
    under the key of the default pair, (0, 0), and no value lies in the
    range of this key: the segment of a flat slice answers no inverse
    query. *)
Theorem flat_slice_answers_no_query (function : float32 -> float32)
        (xIncrement x v : float32) :
  fgt (function x) (function (fadd x xIncrement)) = false ->
  fgt (function (fadd x xIncrement)) (function x) = false ->
  fst (f_of_y_entry function xIncrement x) = (f32 0, f32 0) /\
  in_interval v (f_of_y_entry function xIncrement x) = false.
Proof.
  intros H1 H2.
  assert (Hkey : fst (f_of_y_entry function xIncrement x) = (f32 0, f32 0)).
  { unfold f_of_y_entry. cbn [fst pt_y]. rewrite H1, H2. reflexivity. }
  split; [exact Hkey|].
  unfold in_interval. rewrite Hkey. cbn [fst snd].
  destruct v as [s|s| |s m e]; try destruct s; reflexivity.
Qed.

Lemma flat_slice_answers_no_query_witness :
  in_interval (f32 3) (f_of_y_entry constant3 (f32 5) (f32 0)) = false.
Proof.
  apply (flat_slice_answers_no_query constant3 (f32 5) (f32 0) (f32 3));
    reflexivity.
Defined.

(** ** The order of the maps *)

Section Sorted.

Context {F : Type} {arith : Arith F} {order : Ordered F}.

(** [std::less] on pairs is transitive on keys whose lower bounds are
    comparable. *)
Lemma pair_less_trans (a b c : interval F) :
  fle (fst a) (fst a) = true -> fle (fst b) (fst b) = true ->
  fle (fst c) (fst c) = true ->
  pair_less a b = true -> pair_less b c = true -> pair_less a c = true.
Proof.
  unfold pair_less. destruct a as [a1 a2], b as [b1 b2], c as [c1 c2].
  cbn [fst snd]. intros Ha Hb Hc H1 H2.
  destruct (flt a1 b1) eqn:Eab.
  - destruct (flt b1 c1) eqn:Ebc.
    + rewrite (flt_trans _ _ _ Eab Ebc). reflexivity.
    + simpl in H2. apply andb_true_iff in H2. destruct H2 as [H2 _].
      apply negb_true_iff in H2.
      rewrite (flt_fle_trans _ _ _ Eab (fle_total _ _ Hc Hb H2)).
      reflexivity.
  - simpl in H1. apply andb_true_iff in H1. destruct H1 as [H1 H1'].
    apply negb_true_iff in H1.
    pose proof (fle_total _ _ Hb Ha H1) as Hle.
    destruct (flt b1 c1) eqn:Ebc.
    + rewrite (fle_flt_trans _ _ _ Hle Ebc). reflexivity.
    + simpl in H2. apply andb_true_iff in H2. destruct H2 as [H2 H2'].
      apply negb_true_iff in H2.
      assert (Hca : flt c1 a1 = false).
      { destruct (flt c1 a1) eqn:E; [|reflexivity].
        rewrite (flt_fle_trans _ _ _ E Hle) in H2. discriminate. }
      rewrite Hca, (flt_trans _ _ _ H1' H2').
      destruct (flt a1 c1); reflexivity.
Qed.

(** [insert] keeps the map in key order. *)
Lemma map_insert_sorted (k : interval F) (v : LineFunc F) (m : table F) :
  fle (fst k) (fst k) = true -> Forall key_defined m ->
  keys_sorted m -> keys_sorted (map_insert k v m).
Proof.
  unfold keys_sorted. intro Hk.
  induction m as [|[k' v'] m IH]; intros Hdef Hs; simpl.
  - constructor; constructor.
  - apply StronglySorted_inv in Hs. destruct Hs as [Hs Hall].
    inversion Hdef as [|e l Hk' Hdef']; subst.
    destruct (pair_less k k') eqn:E1.
    + constructor; [constructor; assumption|].
      constructor; [exact E1|].
      rewrite Forall_forall in *. intros e He. unfold key_order in *.
      simpl in *. apply pair_less_trans with (b := k');
        [exact Hk|exact Hk'|apply Hdef'; exact He|exact E1|].
      apply Hall. exact He.
    + destruct (pair_less k' k) eqn:E2.
      * constructor; [apply IH; assumption|].
        rewrite Forall_forall in *. intros e He.
        destruct (map_insert_adds _ _ _ _ He) as [->|Hin].
        -- exact E2.
        -- apply Hall. exact Hin.
      * constructor; assumption.
Qed.

Lemma map_insert_defined (k : interval F) (v : LineFunc F) (m : table F) :
  fle (fst k) (fst k) = true -> Forall key_defined m ->
  Forall key_defined (map_insert k v m).
Proof.
  intros Hk Hdef. rewrite Forall_forall in *. intros e He.
  destruct (map_insert_adds _ _ _ _ He) as [->|Hin]; [exact Hk|].
  apply Hdef. exact Hin.
Qed.

Lemma insert_all_sorted (body : F -> segment F) (xs : list F) :
  (forall x, In x xs -> key_defined (body x)) ->
  forall m : table F,
    Forall key_defined m -> keys_sorted m ->
    keys_sorted (insert_all body xs m).
Proof.
  induction xs as [|x xs IH]; intros Hxs m Hdef Hs; simpl; [exact Hs|].
  change (fold_left ?f ?l ?a) with (insert_all body l a).
  assert (Hx : fle (fst (fst (body x))) (fst (fst (body x))) = true)
    by (apply Hxs; left; reflexivity).
  apply IH.
  - intros x' Hx'. apply Hxs. right. exact Hx'.
  - apply map_insert_defined; assumption.
  - apply map_insert_sorted; assumption.
Qed.

Lemma sorted_tail (l1 : table F) (fn : segment F) (l2 : table F) :
  keys_sorted (l1 ++ fn :: l2) -> Forall (key_order fn) l2.
Proof.
  unfold keys_sorted. induction l1 as [|a l1 IH]; simpl; intro Hs;
    apply StronglySorted_inv in Hs; destruct Hs as [Hs Hall].
  - exact Hall.
  - apply IH. exact Hs.
Qed.

(** In a map in key order, the element that [find_if] returns has the least
    key among the elements whose range holds the value. *)
Lemma first_match_least (a : F) (m : table F) (fn : segment F) :
  keys_sorted m -> first_match a m fn ->
  In fn m /\ in_interval a fn = true /\
  forall e, In e m -> in_interval a e = true ->
    e = fn \/ pair_less (fst fn) (fst e) = true.
Proof.
  intros Hs [l1 [l2 [Hm [Hin Hl1]]]]. subst m.
  split; [apply in_or_app; right; left; reflexivity|].
  split; [exact Hin|].
  intros e He Hine. apply in_app_or in He. destruct He as [He|[He|He]].
  - rewrite (Hl1 e He) in Hine. discriminate.
  - left. symmetry. exact He.
  - right. pose proof (sorted_tail _ _ _ Hs) as Hall.
    rewrite Forall_forall in Hall. apply Hall. exact He.
Qed.

(** The lower bound of the key of a forward segment is the loop value. *)
Lemma forward_key_defined (function : F -> F) (xIncrement second x : F) :
  flt x second = true -> key_defined (f_of_x_entry function xIncrement x).
Proof. intro Hx. apply (flt_defined x second Hx). Qed.

End Sorted.

(** The lower bound of the key of an inverse segment is the smaller of two
    ordered samples, or the 0 of the default pair: never NaN. *)
Lemma inverse_key_defined (function : float32 -> float32)
      (xIncrement x : float32) :
  key_defined (f_of_y_entry function xIncrement x).
Proof.
  unfold key_defined, f_of_y_entry, fgt. cbn [fst pt_y].
  destruct (flt (function (fadd x xIncrement)) (function x)) eqn:E1.
  - apply (flt_defined _ _ E1).
  - destruct (flt (function x) (function (fadd x xIncrement))) eqn:E2.
    + apply (flt_defined _ _ E2).
    + reflexivity.
Qed.

(** Both maps of a constructed object are in key order. *)
Lemma constructed_tables_sorted (fuel : nat) (function : float32 -> float32)
      (n : Z) (lo hi : float32) (p : FunctionToPiecewise float32) :
  new_FunctionToPiecewise fuel function n (lo, hi) = Some p ->
  keys_sorted (f_of_x_fns p) /\ keys_sorted (f_of_y_fns p).
Proof.
  intro Hnew. unfold new_FunctionToPiecewise in Hnew.
  destruct (for_x (f_of_x_entry _ _) _ _ _ _ _) as [fx|] eqn:Hx;
    [|discriminate].
  destruct (for_x (f_of_y_entry _ _) _ _ _ _ _) as [fy|] eqn:Hy;
    [|discriminate].
  injection Hnew as <-. cbn [f_of_x_fns f_of_y_fns].
  destruct (for_x_result _ _ _ _ _ _ _ Hx) as [k [-> [_ Hbelow]]].
  destruct (for_x_result _ _ _ _ _ _ _ Hy) as [k' [-> _]].
  split; apply insert_all_sorted; try constructor.
  - intros x Hin. apply in_knots in Hin. destruct Hin as [j [Hj ->]].
    apply (forward_key_defined _ _ _ _ (Hbelow j Hj)).
  - intros x _. apply inverse_key_defined.
Qed.

(** X7: whatever the source function, when several stored inverse ranges
    hold the query value (as they can for a function that is not monotonic)
    the inverse query evaluates the one with the least key: every other
    stored segment whose range holds the value has a greater key.  The same
    holds for the forward query. *)
Theorem query_takes_least_key (fuel : nat) (function : float32 -> float32)
        (n : Z) (lo hi : float32) (p : FunctionToPiecewise float32)
        (a v : float32) :
  new_FunctionToPiecewise fuel function n (lo, hi) = Some p ->
  (yTox p a = Ok v ->
   exists fn,
     In fn (f_of_y_fns p) /\ in_interval a fn = true /\
     v = evalLinearFunction a (snd fn) /\
     forall e, In e (f_of_y_fns p) -> in_interval a e = true ->
       e = fn \/ pair_less (fst fn) (fst e) = true) /\
  (xToy p a = Ok v ->
   exists fn,
     In fn (f_of_x_fns p) /\ in_interval a fn = true /\
     v = evalLinearFunction a (snd fn) /\
     forall e, In e (f_of_x_fns p) -> in_interval a e = true ->
       e = fn \/ pair_less (fst fn) (fst e) = true).
Proof.
  intro Hnew.
  destruct (constructed_tables_sorted _ _ _ _ _ _ Hnew) as [Hsx Hsy].
  split; intro Hq.
  - unfold yTox in Hq.
    destruct (find (in_interval a) (f_of_y_fns p)) as [fn|] eqn:Ef;
      [|discriminate].
    injection Hq as <-. apply find_first_match in Ef.
    destruct (first_match_least _ _ _ Hsy Ef) as [H1 [H2 H3]].
    exists fn. repeat split; assumption.
  - unfold xToy in Hq.
    destruct (find (in_interval a) (f_of_x_fns p)) as [fn|] eqn:Ef;
      [|discriminate].
    injection Hq as <-. apply find_first_match in Ef.
    destruct (first_match_least _ _ _ Hsx Ef) as [H1 [H2 H3]].
    exists fn. repeat split; assumption.
Qed.

(** For [f(x) = x * x], two segments and the interval (-2, 1) the inverse
    ranges [[0.25, 1)] and [[0.25, 4)] both hold 0.5; the inverse query on
    0.5 takes the first. *)
Lemma query_takes_least_key_witness :
  exists p v,
    new_FunctionToPiecewise 3 square 2 (f32 (-2), f32 1) = Some p /\
    yTox p half = Ok v /\
    exists fn,
      In fn (f_of_y_fns p) /\ in_interval half fn = true /\
      v = evalLinearFunction half (snd fn) /\
      forall e, In e (f_of_y_fns p) -> in_interval half e = true ->
        e = fn \/ pair_less (fst fn) (fst e) = true.
Proof.
  eexists. eexists.
  split; [vm_compute; reflexivity|].
  split; [vm_compute; reflexivity|].
  lazymatch goal with
  | |- exists fn, In fn (f_of_y_fns ?p) /\ _ /\ ?v = _ /\ _ =>
      assert (Hnew : new_FunctionToPiecewise 3 square 2 (f32 (-2), f32 1) =
                     Some p) by (vm_compute; reflexivity);
      assert (Hq : yTox p half = Ok v) by (vm_compute; reflexivity);
      exact (proj1 (query_takes_least_key 3 square 2 (f32 (-2)) (f32 1)
                      p half v Hnew) Hq)
  end.
Defined.

(** ** The domains of the queries *)

(** X8: in a completed construction whose loop values increase
    ([x_0 < .. < x_k], [x_k] the first that is not below [hi]) the forward
    table has [k] ranges; every value of [[lo, hi)] lies in the range of a
    slice, and in one only; the forward query fails exactly outside
    [[lo, x_k)], and on a value of slice [i] it returns the value of the
    two-point line through the samples of the slice. *)
Theorem forward_query_domain_and_value
        (function : float32 -> float32) (n : Z) (lo hi : float32)
        (k fuel : nat) :
  let xIncrement := step_of n (lo, hi) in
  let x_ := knot lo xIncrement in
  iterations lo hi xIncrement k ->
  knots_increasing lo xIncrement k ->
  (k < fuel)%nat ->
  exists p,
    new_FunctionToPiecewise fuel function n (lo, hi) = Some p /\
    length (f_of_x_fns p) = k /\
    (forall x, in_range x lo hi = true ->
       exists i, (i < k)%nat /\ in_range x (x_ i) (x_ (S i)) = true /\
         forall j, (j < k)%nat -> in_range x (x_ j) (x_ (S j)) = true ->
                   j = i) /\
    (forall x, xToy p x = Error x_out_of_interval <->
               in_range x lo (x_ k) = false) /\
    (forall i x, (i < k)%nat -> in_range x (x_ i) (x_ (S i)) = true ->
       xToy p x =
       Ok (evalLinearFunction x
             (line_through (mkPoint (x_ i) (function (x_ i)))
                           (mkPoint (x_ (S i)) (function (x_ (S i))))))).
Proof.
  intros xIncrement x_ Hloop Hinc Hfuel.
  eexists. split.
  - apply (construction_completes function lo hi xIncrement k Hloop n fuel
             eq_refl Hfuel).
  - cbn [f_of_x_fns]. split; [|split; [|split]].
    + apply forward_table_length. exact Hinc.
    + intros x Hx. unfold in_range in Hx.
      apply andb_true_iff in Hx. destruct Hx as [Hx1 Hx2].
      assert (Hend : in_range x lo (x_ k) = true).
      { unfold in_range. rewrite Hx1. simpl.
        destruct Hloop as [_ Hstop].
        apply (flt_fle_trans _ _ _ Hx2).
        apply fle_total; [| |exact Hstop].
        - destruct k as [|k']; [apply (fle_defined _ _ Hx1)|].
          apply (rising_defined x_ (S k') Hinc); lia.
        - apply (flt_defined _ _ Hx2). }
      destruct (rising_locate x_ k Hinc x Hend) as [i [Hi Hin]].
      exists i. split; [exact Hi|]. split; [exact Hin|].
      intros j Hj Hjn. apply (rising_unique x_ k Hinc x); assumption.
    + intro x. apply (xToy_fails_iff function lo xIncrement k Hinc).
    + intros i x Hi Hx.
      apply (xToy_in_slice function lo xIncrement k Hinc x i Hi Hx).
Qed.

(** X8 for [Func1], two segments and the interval (0, 1): 0.75 lies in the
    second slice, the forward query on it returns 1.5, and the forward
    query on 1 fails. *)
Lemma forward_query_domain_and_value_witness :
  exists p,
    new_FunctionToPiecewise 3 Func1 2 (f32 0, f32 1) = Some p /\
    length (f_of_x_fns p) = 2%nat /\
    xToy p three_quarters = Ok (fdiv (f32 3) (f32 2)) /\
    xToy p (f32 1) = Error x_out_of_interval.
Proof.
  assert (Hfuel : (2 < 3)%nat) by lia.
  assert (Hi : (1 < 2)%nat) by lia.
  destruct (forward_query_domain_and_value Func1 2 (f32 0) (f32 1) 2 3
              (proj1 unit_interval_two_slices)
              (proj2 unit_interval_two_slices) Hfuel)
    as [p [Hp [Hlen [_ [Hdom Hval]]]]].
  exists p. split; [exact Hp|]. split; [exact Hlen|]. split.
  - rewrite (Hval 1%nat three_quarters Hi); vm_compute; reflexivity.
  - apply Hdom. vm_compute. reflexivity.
Defined.

(** X11: in a completed construction whose samples are strictly increasing
    the inverse query fails exactly outside [[f(lo), f(x_k))]; when they are
    strictly decreasing it fails exactly outside [[f(x_k), f(lo))], and so
    on [f(lo)] itself. *)
Theorem inverse_query_domain
        (function : float32 -> float32) (n : Z) (lo hi : float32)
        (k fuel : nat) :
  let xIncrement := step_of n (lo, hi) in
  let x_ := knot lo xIncrement in
  iterations lo hi xIncrement k ->
  (k < fuel)%nat ->
  exists p,
    new_FunctionToPiecewise fuel function n (lo, hi) = Some p /\
    (samples_increasing function lo xIncrement k ->
     forall y, yTox p y = Error y_out_of_range <->
               in_range y (function lo) (function (x_ k)) = false) /\
    (samples_decreasing function lo xIncrement k ->
     (forall y, yTox p y = Error y_out_of_range <->
                in_range y (function (x_ k)) (function lo) = false) /\
     yTox p (function lo) = Error y_out_of_range).
Proof.
  intros xIncrement x_ Hloop Hfuel.
  eexists. split.
  - apply (construction_completes function lo hi xIncrement k Hloop n fuel
             eq_refl Hfuel).
  - split.
    + intros Hup y.
      apply (rising_yTox_fails_iff function lo xIncrement k Hup).
    + intros Hdown.
      assert (Hdom : forall y,
                 yTox (mkFunctionToPiecewise function
                         (insert_all (f_of_x_entry function xIncrement)
                                     (knots lo xIncrement k) [])
                         (insert_all (f_of_y_entry function xIncrement)
                                     (knots lo xIncrement k) [])) y =
                 Error y_out_of_range <->
                 in_range y (function (x_ k)) (function lo) = false)
        by (intro y; apply (falling_yTox_fails_iff function lo xIncrement k
                              Hdown)).
      split; [exact Hdom|].
      apply Hdom. unfold in_range. apply andb_false_iff. right.
      destruct (flt (function lo) (function lo)) eqn:E; [|reflexivity].
      rewrite (flt_asym _ _ E) in E. discriminate.
Qed.

(** X11 for [Func1], two segments and the interval (0, 1): the samples are
    0, 1 and 2, and the inverse query on 2 fails. *)
Lemma inverse_query_domain_witness :
  exists p,
    new_FunctionToPiecewise 3 Func1 2 (f32 0, f32 1) = Some p /\
    yTox p (f32 2) = Error y_out_of_range.
Proof.
  assert (Hfuel : (2 < 3)%nat) by lia.
  destruct (inverse_query_domain Func1 2 (f32 0) (f32 1) 2 3
              (proj1 unit_interval_two_slices) Hfuel)
    as [p [Hp [Hup _]]].
  exists p. split; [exact Hp|].
  apply (Hup Func1_samples_increasing). vm_compute. reflexivity.
Defined.

